(** * Token-budget batching and collation of [spring_amr/dataset.py]

    A shallow embedding of the collation helper [to_tensor], of
    [AMRDataset.__getitem__] / [AMRDataset.collate_fn] and of the class
    [AMRDatasetTokenBatcherAndLoader] (its constructor, its generator
    [sampler] and its [__iter__]), followed by the properties of the
    batching algorithm.

    Conventions of the embedding.
    - Python integers are unbounded: lengths are [nat], the token budget and
      the running counters of the sampler are [Z].
    - A Python exception is a value [Raise e] of the error monad [result].
    - A one-dimensional LongTensor is a [list Z]; a two-dimensional one is a
      [Tensor], a list of rows together with the device holding it.
    - A [dict] with string keys is a [gmap string value].
    - A generator is represented by the list of the values it yields, in the
      order of the yields.
    - The process-wide random generator is threaded explicitly.
    - A number that torch takes as a float is the C double nearest to it; a
      double whose value is an integer is represented by that integer. *)

From Stdlib Require Import Ascii.
From stdpp Require Import gmap strings list fin_maps sorting.

Local Open Scope Z_scope.

(** ** Exceptions *)

Inductive exn := IndexError | KeyError | TypeError | RuntimeError | OverflowError.

Inductive result (A : Type) : Type :=
| Ok (a : A)
| Raise (e : exn).
Arguments Ok {A} a.
Arguments Raise {A} e.

Global Instance result_ret : MRet result := λ A a, Ok a.
Global Instance result_bind : MBind result := λ A B f m,
  match m with Ok a => f a | Raise e => Raise e end.
Global Instance result_fmap : FMap result := λ A B f m,
  match m with Ok a => Ok (f a) | Raise e => Raise e end.

(** [l[i]] for [i >= 0]. *)
Definition index {A} (l : list A) (i : nat) : result A :=
  match l !! i with Some a => Ok a | None => Raise IndexError end.

(** ** The random generator: [random.shuffle]

    The state of Python's global generator is an infinite tape of raw draws
    and a read position. [shuffle] follows CPython's [Random.shuffle]:
    [for i in reversed(range(1, len(x))): j = randbelow(i + 1);
     x[i], x[j] = x[j], x[i]]. *)

Module Random.

Record state := { tape : nat → nat; pos : nat }.

Definition randbelow (n : nat) (g : state) : nat * state :=
  ((tape g (pos g) `mod` n)%nat, {| tape := tape g; pos := S (pos g) |}).

Definition swap {A} (i j : nat) (x : list A) : list A :=
  match x !! i, x !! j with
  | Some a, Some b => <[j := a]> (<[i := b]> x)
  | _, _ => x
  end.

Fixpoint shuffle_from {A} (i : nat) (x : list A) (g : state) : list A * state :=
  match i with
  | O => (x, g)
  | S i' =>
      let '(j, g1) := randbelow (S i) g in
      shuffle_from i' (swap i j x) g1
  end.

Definition shuffle {A} (x : list A) (g : state) : list A * state :=
  shuffle_from (length x - 1)%nat x g.

End Random.

(** ** [list.sort(key=...)]

    Python's sort computes the key of every element first (an exception of
    the key function aborts the sort), then sorts by [<] on the keys and is
    stable. Stable sorts agree on every input, so insertion from the right
    stands for it here. *)

Fixpoint insert_by {A} (key : A → Z) (x : A) (l : list A) : list A :=
  match l with
  | [] => [x]
  | y :: r => if bool_decide (key x ≤ key y) then x :: y :: r
              else y :: insert_by key x r
  end.

Fixpoint sort_by {A} (key : A → Z) (l : list A) : list A :=
  match l with
  | [] => []
  | x :: r => insert_by key x (sort_by key r)
  end.

Definition list_sort {A} (key : A → result Z) (l : list A) : result (list A) :=
  keys ← mapM key l;
  mret (snd <$> sort_by (fst : Z * A → Z) (zip keys l)).

(** ** Data model *)

Inductive Device := cpu | cuda (n : nat).

(** Values stored in a sample dictionary: an integer, a string, a
    one-dimensional LongTensor, or some other Python object (a graph, a list
    of tokens) identified by a handle. *)
Inductive value :=
| VInt (n : Z)
| VStr (s : string)
| VTensor (t : list Z)
| VObj (o : nat).

Record Tensor := { data : list (list Z); tdevice : Device }.

Record Tokenizer := { pad_token_id : Z }.

(** [d[k]] on a dictionary. *)
Definition getkey (d : gmap string value) (k : string) : result value :=
  match d !! k with Some v => Ok v | None => Raise KeyError end.

Definition as_tensor (v : value) : result (list Z) :=
  match v with VTensor t => Ok t | _ => Raise TypeError end.

(** Truth value of a list: [if batch_ids], [while ids], [if self.linearized]. *)
Definition truthy {A} (l : list A) : bool :=
  match l with [] => false | _ => true end.

(** ** Collation: [to_tensor] *)

(** Numbers handed to torch. A double whose value is an integer is
    represented by that integer.

    [pad_sequence] declares [padding_value] as a float, so the Python
    integer given for it is converted to a C double: exactly up to [2^53]
    in absolute value, with 53 significant bits beyond (to the nearest,
    ties to even), and with [OverflowError] when the result would not be
    finite. *)
Definition round_to_double (n : Z) : Z :=
  let a := Z.abs n in
  if bool_decide (a ≤ 2 ^ 53) then n
  else
    let e := Z.log2 a - 52 in
    let q := Z.shiftr a e in
    let r := a - Z.shiftl q e in
    let half := Z.shiftl 1 (e - 1) in
    let q' := if bool_decide (r < half) then q
              else if bool_decide (half < r) then q + 1
              else if Z.even q then q else q + 1 in
    Z.sgn n * Z.shiftl q' e.

Definition float_of_int (n : Z) : result Z :=
  let f := round_to_double n in
  if bool_decide (2 ^ 1024 ≤ Z.abs f) then Raise OverflowError else mret f.

(** Filling a LongTensor, whose elements are 64-bit signed integers, with
    a double: a value beyond the range of int64 is refused (the conversion
    of [2^63] itself, which C leaves undefined, is counted among them). *)
Definition int64_of_float (f : Z) : result Z :=
  if bool_decide (- 2 ^ 63 ≤ f < 2 ^ 63) then mret f else Raise RuntimeError.

(** [torch.nn.utils.rnn.pad_sequence(sequences, batch_first=True,
    padding_value=...)]: every row is filled up to the length of the
    longest one with the padding value, as the double it was converted to
    and the int64 tensor stores; an empty list of sequences is rejected. *)
Definition pad_sequence (sequences : list (list Z)) (padding_value : Z)
  : result (list (list Z)) :=
  as_double ← float_of_int padding_value;
  match sequences with
  | [] => Raise RuntimeError
  | _ =>
      fill ← int64_of_float as_double;
      let max_len := max_list (length <$> sequences) in
      mret ((λ s, s ++ replicate (max_len - length s)%nat fill) <$> sequences)
  end.

(** [torch.ne(input_ids, other).to(torch.int64)], on the rows, for an
    integer scalar [other]: the comparison is between integers. *)
Definition ne (input : list (list Z)) (other : Z) : list (list Z) :=
  (λ row : list Z,
     (λ v : Z, if bool_decide (v ≠ other) then 1 else 0) <$> row) <$> input.

(** The result is the padded tensor, and the mask unless [return_mask] is
    false. The mask compares the rows with the padding value itself, not
    with the value the rows were filled with. *)
Definition to_tensor (samples : list (gmap string value)) (key_value : string)
    (padding_value : Z) (device : Device) (return_mask : bool)
  : result (Tensor * option Tensor) :=
  vals ← mapM (λ s, getkey s key_value) samples;
  tokenized ← mapM as_tensor vals;
  input_ids ← pad_sequence tokenized padding_value;
  if negb return_mask then
    mret ({| data := input_ids; tdevice := device |}, None)
  else
    let attention_mask := ne input_ids padding_value in
    mret ({| data := input_ids; tdevice := device |},
          Some {| data := attention_mask; tdevice := device |}).

(** The call sites [input_ids, attention_mask = to_tensor(...)]. *)
Definition to_tensor_mask (samples : list (gmap string value)) (key_value : string)
    (padding_value : Z) (device : Device) : result (Tensor * Tensor) :=
  r ← to_tensor samples key_value padding_value device true;
  match r with
  | (input_ids, Some attention_mask) => mret (input_ids, attention_mask)
  | (_, None) => Raise TypeError
  end.

(** What [collate_fn] returns: the dictionaries [x], [y] and [extra]. *)
Module Batch.

Record X := { input_ids : Tensor; attention_mask : Tensor }.

Record Y := { decoder_input_ids : Tensor; labels : Tensor }.

Record Extra := {
  sentences : list value;
  graphs : option (list value);
  linearized_graphs : option (list value);
  ids : list value;
  input_ids_en : Tensor;
  attention_mask_en : Tensor;
  input_ids_teacher : Tensor;
  attention_mask_teacher : Tensor
}.

Definition t : Type := X * option Y * Extra.

End Batch.

(** ** The dataset

    The attributes of an [AMRDataset] that the batching code reads. The
    constructor appends to all the example lists in the same loop iteration;
    [wf] records the resulting equality of lengths. *)
Module AMRDataset.

Record t := {
  rank : nat;
  tokenizer : Tokenizer;
  teacher_tokenizer : Tokenizer;
  sentences : list string;
  tokenized : list (list Z);
  sentences_en : list string;
  tokenized_en : list (list Z);
  sentences_teacher : list string;
  tokenized_teacher : list (list Z);
  linearized : list (list Z);
  linearized_extra : list (gmap string value)
}.

Definition len (self : t) : nat := length (sentences self).

Record wf (self : t) : Prop := {
  wf_tokenized : length (tokenized self) = len self;
  wf_sentences_en : length (sentences_en self) = len self;
  wf_tokenized_en : length (tokenized_en self) = len self;
  wf_sentences_teacher : length (sentences_teacher self) = len self;
  wf_tokenized_teacher : length (tokenized_teacher self) = len self;
  wf_linearized : length (linearized self) = len self;
  wf_linearized_extra : length (linearized_extra self) = len self
}.

(** [__getitem__]; [sample.update(e)] lets the keys of [e] win. *)
Definition getitem (self : t) (idx : nat) : result (gmap string value) :=
  let sample : gmap string value := ∅ in
  let sample := <["id" := VInt (Z.of_nat idx)]> sample in
  s ← index (sentences self) idx;
  let sample := <["sentence" := VStr s]> sample in
  x ← index (tokenized self) idx;
  let sample := <["tokenized_ids" := VTensor x]> sample in
  sample ← (if truthy (linearized self) then
              l ← index (linearized self) idx;
              let sample := <["linearized_graphs_ids" := VTensor l]> sample in
              e ← index (linearized_extra self) idx;
              mret (e ∪ sample)
            else mret sample);
  sample ← (if truthy (tokenized_en self) then
              x_en ← index (tokenized_en self) idx;
              let sample := <["tokenized_ids_en" := VTensor x_en]> sample in
              s_en ← index (sentences_en self) idx;
              mret (<["sentence_en" := VStr s_en]> sample)
            else mret sample);
  sample ← (if truthy (tokenized_teacher self) then
              x_t ← index (tokenized_teacher self) idx;
              let sample := <["tokenized_ids_teacher" := VTensor x_t]> sample in
              s_t ← index (sentences_teacher self) idx;
              mret (<["sentence_teacher" := VStr s_t]> sample)
            else mret sample);
  mret sample.

(** [batch[:, :-1]] and [batch[:, 1:]]. *)
Definition drop_last_col (b : Tensor) : Tensor :=
  {| data := (λ row, take (length row - 1)%nat row) <$> data b; tdevice := tdevice b |}.
Definition drop_first_col (b : Tensor) : Tensor :=
  {| data := drop 1 <$> data b; tdevice := tdevice b |}.

Definition collate_fn (self : t) (samples : list (gmap string value))
    (device : Device) : result Batch.t :=
  '(input_ids, attention_mask) ←
    to_tensor_mask samples "tokenized_ids" (pad_token_id (tokenizer self)) device;
  let x := {| Batch.input_ids := input_ids; Batch.attention_mask := attention_mask |} in
  sents ← mapM (λ x, getkey x "sentence") samples;
  s0 ← index samples 0;
  '(gs, lgs, y) ←
    (if bool_decide (is_Some (s0 !! "linearized_graphs_ids")) then
       gs ← mapM (λ x, getkey x "graphs") samples;
       lgs ← mapM (λ x, getkey x "linearized_graphs") samples;
       '(batch, _) ← to_tensor samples "linearized_graphs_ids"
                       (pad_token_id (tokenizer self)) device false;
       mret (Some gs, Some lgs,
             Some {| Batch.decoder_input_ids := drop_last_col batch;
                     Batch.labels := drop_first_col batch |})
     else mret (None, None, None));
  ids ← mapM (λ s, getkey s "id") samples;
  '(input_ids_en, attention_mask_en) ←
    to_tensor_mask samples "tokenized_ids_en" (pad_token_id (tokenizer self)) device;
  '(input_ids_teacher, attention_mask_teacher) ←
    to_tensor_mask samples "tokenized_ids_teacher"
      (pad_token_id (teacher_tokenizer self)) device;
  mret (x, y,
        {| Batch.sentences := sents;
           Batch.graphs := gs;
           Batch.linearized_graphs := lgs;
           Batch.ids := ids;
           Batch.input_ids_en := input_ids_en;
           Batch.attention_mask_en := attention_mask_en;
           Batch.input_ids_teacher := input_ids_teacher;
           Batch.attention_mask_teacher := attention_mask_teacher |}).

End AMRDataset.

(** ** The sampler *)

Record Loader := {
  batch_size : Z;
  tokenizer : Tokenizer;
  dataset : AMRDataset.t;
  device : Device;
  shuffle : bool;
  sort : bool
}.

(** The locals of [sampler] that [discharge] shares with the loop. *)
Record batch_state := {
  batch_longest : Z;
  batch_nexamps : Z;
  batch_ntokens : Z;
  batch_ids : list nat
}.

Definition batch_init : batch_state :=
  {| batch_longest := 0; batch_nexamps := 0; batch_ntokens := 0; batch_ids := [] |}.

Definition discharge (st : batch_state) : list nat * batch_state :=
  (batch_ids st,
   {| batch_longest := batch_longest st * 0;
      batch_nexamps := batch_nexamps st * 0;
      batch_ntokens := batch_ntokens st * 0;
      batch_ids := [] |}).

(** One iteration of the [while] loop, for the popped [idx]: the groups it
    yields, in order, and the locals at the end of the iteration. *)
Definition sampler_step (self : Loader) (idx : nat) (st : batch_state)
  : result (list (list nat) * batch_state) :=
  l ← index (AMRDataset.linearized (dataset self)) idx;
  let size := Z.of_nat (length l) in
  let cand_batch_ntokens := Z.max size (batch_longest st) * (batch_nexamps st + 1) in
  let '(out1, st) :=
    if bool_decide (cand_batch_ntokens > batch_size self) && truthy (batch_ids st)
    then let '(ret, st') := discharge st in ([ret], st')
    else ([], st) in
  let longest := Z.max (batch_longest st) size in
  let nexamps := batch_nexamps st + 1 in
  let st := {| batch_longest := longest;
               batch_nexamps := nexamps;
               batch_ntokens := longest * nexamps;
               batch_ids := batch_ids st ++ [idx] |} in
  let '(out2, st) :=
    if bool_decide (length (batch_ids st) = 1%nat)
       && bool_decide (batch_ntokens st > batch_size self)
    then let '(ret, st') := discharge st in ([ret], st')
    else ([], st) in
  mret (out1 ++ out2, st).

(** The loop [while ids: idx = ids.pop() ...] followed by the final flush,
    by recursion on the stack of ids still to pop (top first). *)
Fixpoint sampler_loop (self : Loader) (stack : list nat) (st : batch_state)
  : result (list (list nat)) :=
  match stack with
  | [] => mret (if truthy (batch_ids st) then [fst (discharge st)] else [])
  | idx :: stack' =>
      '(out, st') ← sampler_step self idx st;
      rest ← sampler_loop self stack' st';
      mret (out ++ rest)
  end.

(** [ids.pop()] takes the last element, so the stack is the reversed list. *)
Definition sampler_while (self : Loader) (ids : list nat) (st : batch_state)
  : result (list (list nat)) :=
  sampler_loop self (reverse ids) st.

(** Lines 171-179: the id list after the optional shuffle and sort. *)
Definition sampler_ids (self : Loader) (g : Random.state)
  : result (list nat * Random.state) :=
  let ids := seq 0 (AMRDataset.len (dataset self)) in
  let '(ids, g) := if shuffle self then Random.shuffle ids g else (ids, g) in
  ids ← (if sort self then
           let lengths :=
             if shuffle self
             then length <$> AMRDataset.linearized (dataset self)
             else length <$> AMRDataset.tokenized (dataset self) in
           list_sort (λ x, n ← index lengths x; mret (- Z.of_nat n)) ids
         else mret ids);
  mret (ids, g).

Definition sampler (self : Loader) (g : Random.state)
  : result (list (list nat) * Random.state) :=
  '(ids, g) ← sampler_ids self g;
  groups ← sampler_while self ids batch_init;
  mret (groups, g).


(** ** Construction and iteration *)

(** [__init__] stores its arguments. *)
Definition init (dataset : AMRDataset.t) (batch_size : Z) (device : Device)
    (shuffle sort : bool) : result Loader :=
  mret {| batch_size := batch_size;
          tokenizer := AMRDataset.tokenizer dataset;
          dataset := dataset;
          device := device;
          shuffle := shuffle;
          sort := sort |}.

(** Loader objects are mutable and live in a store; the generator returned by
    [__iter__] keeps a reference to its loader, not a copy of it. *)
Abbreviation store := (gmap nat Loader).

Definition set_device (d : Device) (self : Loader) : Loader :=
  {| batch_size := batch_size self; tokenizer := tokenizer self;
     dataset := dataset self; device := d;
     shuffle := shuffle self; sort := sort self |}.

Definition set_batch_size (b : Z) (self : Loader) : Loader :=
  {| batch_size := b; tokenizer := tokenizer self;
     dataset := dataset self; device := device self;
     shuffle := shuffle self; sort := sort self |}.

(** [loader.device = d] and [loader.batch_size = b]. *)
Definition assign_device (r : nat) (d : Device) (h : store) : store :=
  alter (set_device d) r h.
Definition assign_batch_size (r : nat) (b : Z) (h : store) : store :=
  alter (set_batch_size b) r h.

(** The generator expression of [__iter__]: the loader it closes over and
    the groups of samples it has not collated yet. *)
Record Iterator := {
  self_ref : nat;
  pending : list (list (gmap string value))
}.

(** [__iter__]: the list comprehension runs the sampler to its end, the
    groups are shuffled as a list, and the generator expression is returned
    without having collated anything. *)
Definition iter (h : store) (r : nat) (g : Random.state)
  : result (Iterator * Random.state) :=
  self ← match h !! r with Some self => Ok self | None => Raise KeyError end;
  '(it, g) ← sampler self g;
  it ← mapM (λ b, mapM (λ s, AMRDataset.getitem (dataset self) s) b) it;
  let '(it, g) := if shuffle self then Random.shuffle it g else (it, g) in
  mret ({| self_ref := r; pending := it |}, g).

Inductive next_result :=
| StopIteration
| Yield (batch : Batch.t) (it : Iterator)
| Raised (e : exn).

(** [next] on the generator expression: [self.dataset] and [self.device] are
    evaluated now, on the loader as it is in the store. *)
Definition next (h : store) (it : Iterator) : next_result :=
  match pending it with
  | [] => StopIteration
  | b :: rest =>
      match h !! self_ref it with
      | None => Raised KeyError
      | Some self =>
          match AMRDataset.collate_fn (dataset self) b (device self) with
          | Ok batch => Yield batch {| self_ref := self_ref it; pending := rest |}
          | Raise e => Raised e
          end
      end
  end.

(** ** Vocabulary of the properties *)

(** The bucketing length of an example is the length of its linearized
    graph, the primary length that of its tokenized sentence. *)
Definition bucketing_length (ds : AMRDataset.t) (idx : nat) : Z :=
  Z.of_nat (length (default [] (AMRDataset.linearized ds !! idx))).

Definition primary_length (ds : AMRDataset.t) (idx : nat) : Z :=
  Z.of_nat (length (default [] (AMRDataset.tokenized ds !! idx))).

(** The longest bucketing length in a group, and the padded size of the
    group. *)
Definition group_longest (ds : AMRDataset.t) (grp : list nat) : Z :=
  foldr Z.max 0 (bucketing_length ds <$> grp).

Definition group_cost (ds : AMRDataset.t) (grp : list nat) : Z :=
  group_longest ds grp * Z.of_nat (length grp).

(** What holds of the locals of [sampler] at the top of the loop. *)
Record batch_inv (self : Loader) (st : batch_state) : Prop := {
  inv_nexamps : batch_nexamps st = Z.of_nat (length (batch_ids st));
  inv_longest : batch_longest st = group_longest (dataset self) (batch_ids st);
  inv_budget : batch_ids st ≠ [] →
               group_cost (dataset self) (batch_ids st) ≤ batch_size self
}.

(** A yielded group is not empty, and it fits the budget or is a single
    example that is longer than the budget. *)
Definition group_ok (self : Loader) (grp : list nat) : Prop :=
  grp ≠ [] ∧
  (group_cost (dataset self) grp ≤ batch_size self
   ∨ ∃ i, grp = [i] ∧ bucketing_length (dataset self) i > batch_size self).

(** [output] is [input] stably sorted by descending [len]. *)
Definition stable_sorted_desc (len : nat → Z) (input output : list nat) : Prop :=
  output ≡ₚ input
  ∧ StronglySorted (λ a b, len b ≤ len a) output
  ∧ ∀ k, filter (λ x, len x = k) output = filter (λ x, len x = k) input.

(** The entries of [row] at the positions where [mask] is 1. *)
Definition select_by_mask (row mask : list Z) : list Z :=
  fst <$> filter (λ p, p.2 = 1) (zip row mask).

(** Every tensor of the batch is held by device [d]. *)
Definition batch_on (d : Device) (batch : Batch.t) : Prop :=
  let '(x, y, extra) := batch in
  tdevice (Batch.input_ids x) = d
  ∧ tdevice (Batch.attention_mask x) = d
  ∧ (∀ y', y = Some y' →
       tdevice (Batch.decoder_input_ids y') = d ∧ tdevice (Batch.labels y') = d)
  ∧ tdevice (Batch.input_ids_en extra) = d
  ∧ tdevice (Batch.attention_mask_en extra) = d
  ∧ tdevice (Batch.input_ids_teacher extra) = d
  ∧ tdevice (Batch.attention_mask_teacher extra) = d.

(** ** Sample data *)

(** A dataset with the given tokenized sentences and linearized graphs. *)
Definition toy_dataset (tok lin : list (list Z)) : AMRDataset.t :=
  {| AMRDataset.rank := 0;
     AMRDataset.tokenizer := {| pad_token_id := 1 |};
     AMRDataset.teacher_tokenizer := {| pad_token_id := 1 |};
     AMRDataset.sentences := (λ _, "snt"%string) <$> tok;
     AMRDataset.tokenized := tok;
     AMRDataset.sentences_en := (λ _, "snt"%string) <$> tok;
     AMRDataset.tokenized_en := tok;
     AMRDataset.sentences_teacher := (λ _, "snt"%string) <$> tok;
     AMRDataset.tokenized_teacher := tok;
     AMRDataset.linearized := lin;
     AMRDataset.linearized_extra :=
       (λ _, {[ "graphs"%string := VObj 0; "linearized_graphs"%string := VObj 1 ]}) <$> tok |}.

Definition toy_loader (ds : AMRDataset.t) (budget : Z) (shuffle sort : bool) : Loader :=
  {| batch_size := budget; tokenizer := AMRDataset.tokenizer ds; dataset := ds;
     device := cpu; shuffle := shuffle; sort := sort |}.

(** Three examples with bucketing lengths 5, 3 and 9 and primary lengths
    2, 4 and 3. *)
Definition ds_5_3_9 : AMRDataset.t :=
  toy_dataset [[0; 7]; [0; 8; 9; 2]; [0; 5; 2]]
              [replicate 5 4; replicate 3 4; replicate 9 4].

(** Three examples with bucketing lengths 5, 50 and 3. *)
Definition ds_5_50_3 : AMRDataset.t :=
  toy_dataset [[0; 7]; [0; 8; 9; 2]; [0; 5; 2]]
              [replicate 5 4; replicate 50 4; replicate 3 4].

Definition tape0 : Random.state := {| Random.tape := λ n, n; Random.pos := 0 |}.

(** A store with one loader, at address 0, and the iterator that
    [__iter__] returns for it. *)
Definition toy_store : store := {[ 0%nat := toy_loader ds_5_3_9 20 true true ]}.

Definition toy_iterator : Iterator * Random.state :=
  match iter toy_store 0 tape0 with
  | Ok p => p
  | Raise _ => ({| self_ref := 0; pending := [] |}, tape0)
  end.

(** Five examples of bucketing length 3, and a dataset without examples. *)
Definition ds_uniform_3 : AMRDataset.t :=
  toy_dataset (replicate 5 [0; 7; 2]) (replicate 5 [4; 4; 4]).

Definition ds_empty : AMRDataset.t := toy_dataset [] [].

(** ** [reverse_direction] *)

Global Instance Device_eq_dec : EqDecision Device.
Proof. solve_decision. Defined.






(** All rows of the tensor have [w] entries. *)
Definition width (w : nat) (t : Tensor) : Prop :=
  Forall (λ row, length row = w) (data t).

(** Two samples with a tokenized sentence, and two samples of which the
    second has none. *)
Definition two_samples : list (gmap string value) :=
  [ {[ "tokenized_ids"%string := VTensor [0; 1; 2] ]};
    {[ "tokenized_ids"%string := VTensor [0] ]} ].

Definition malformed_samples : list (gmap string value) :=
  [ {[ "tokenized_ids"%string := VTensor [0; 2] ]};
    {[ "sentence"%string := VStr "a" ]} ].

(** The samples of examples 2 and 1 of [ds_5_3_9], and their batch. *)
Definition toy_sample (idx : nat) : gmap string value :=
  match AMRDataset.getitem ds_5_3_9 idx with Ok s => s | Raise _ => ∅ end.

Definition toy_group : list (gmap string value) := [toy_sample 2; toy_sample 1].

Definition toy_batch : Batch.t :=
  match AMRDataset.collate_fn ds_5_3_9 toy_group cpu with
  | Ok b => b
  | Raise _ =>
      let t := {| data := []; tdevice := cpu |} in
      ({| Batch.input_ids := t; Batch.attention_mask := t |}, None,
       {| Batch.sentences := []; Batch.graphs := None;
          Batch.linearized_graphs := None; Batch.ids := [];
          Batch.input_ids_en := t; Batch.attention_mask_en := t;
          Batch.input_ids_teacher := t; Batch.attention_mask_teacher := t |})
  end.

Definition toy_y : Batch.Y :=
  match toy_batch.1.2 with
  | Some y => y
  | None => let t := {| data := []; tdevice := cpu |} in
            {| Batch.decoder_input_ids := t; Batch.labels := t |}
  end.



(** ** A whole pass

    [list(loader)]: [__iter__], then [next] until [StopIteration], with the
    store left alone during the pass. The fuel bounds the number of calls of
    [next]; one more than the number of pending groups is enough. *)
Fixpoint drain (fuel : nat) (h : store) (it : Iterator) : result (list Batch.t) :=
  match fuel with
  | O => Raise RuntimeError
  | S fuel' =>
      match next h it with
      | StopIteration => mret []
      | Yield batch it' => rest ← drain fuel' h it'; mret (batch :: rest)
      | Raised e => Raise e
      end
  end.

Definition epoch (h : store) (r : nat) (g : Random.state)
  : result (list Batch.t * Random.state) :=
  '(it, g) ← iter h r g;
  batches ← drain (S (length (pending it))) h it;
  mret (batches, g).

(** The dictionaries of [linearized_extra] hold the graph and its
    linearization and do not use the names of the fields that [__getitem__]
    sets before it merges them. *)
Definition extras_ok (ds : AMRDataset.t) : Prop :=
  Forall (λ e : gmap string value,
            is_Some (e !! "graphs") ∧ is_Some (e !! "linearized_graphs")
            ∧ e !! "id" = None ∧ e !! "sentence" = None
            ∧ e !! "tokenized_ids" = None
            ∧ e !! "linearized_graphs_ids" = None)
    (AMRDataset.linearized_extra ds).

(** The value of the field [id] of example [idx]. *)
Definition id_value (idx : nat) : value := VInt (Z.of_nat idx).

(** What [collate_fn] needs of the sample of example [idx]. *)
Definition sample_ok (idx : nat) (s : gmap string value) : Prop :=
  s !! "id" = Some (id_value idx)
  ∧ is_Some (s !! "sentence")
  ∧ (∃ x, s !! "tokenized_ids" = Some (VTensor x))
  ∧ (∃ l, s !! "linearized_graphs_ids" = Some (VTensor l))
  ∧ is_Some (s !! "graphs")
  ∧ is_Some (s !! "linearized_graphs")
  ∧ (∃ x, s !! "tokenized_ids_en" = Some (VTensor x))
  ∧ (∃ x, s !! "tokenized_ids_teacher" = Some (VTensor x)).

(** ** The constructor of [AMRDataset]

    The constructor raises exceptions that the batching code does not. *)
Inductive pyexn := Exn (e : exn) | ZeroDivisionError | ValueError.

Inductive outcome (A : Type) : Type :=
| Done (a : A)
| Fails (e : pyexn).
Arguments Done {A} a.
Arguments Fails {A} e.

Global Instance outcome_ret : MRet outcome := λ A a, Done a.
Global Instance outcome_bind : MBind outcome := λ A B f m,
  match m with Done a => f a | Fails e => Fails e end.

(** [l[start::step]] for [start >= 0]: [every_nth step wait l] skips [wait]
    elements, keeps one, and goes on with [step - 1] to skip. *)
Fixpoint every_nth {A} (step wait : nat) (l : list A) : list A :=
  match l with
  | [] => []
  | a :: r =>
      match wait with
      | O => a :: every_nth step (step - 1) r
      | S w => every_nth step w r
      end
  end.

Definition slice_from_step {A} (start step : nat) (l : list A) : outcome (list A) :=
  match step with
  | O => Fails ValueError
  | S _ => Done (every_nth step start l)
  end.

(** A graph as the constructor reads it: its metadata, and a handle for the
    rest. *)
Record Graph := { metadata : gmap string string; graph_handle : nat }.

(** A tokenizer object: the attributes [pad_token_id] and [src_lang], and
    the methods [linearize] and [encode] of the tokenizer module, which are
    taken as given; [encode] depends on the [src_lang] in force. *)
Record TokenizerObj := {
  attrs : Tokenizer;
  src_lang : string;
  linearize : Graph → list Z * gmap string value;
  encode : string → string → list Z
}.

(** [g.metadata[k]]. *)
Definition metadata_get (g : Graph) (k : string) : outcome string :=
  match metadata g !! k with Some v => Done v | None => Fails (Exn KeyError) end.

(** What the loop of the constructor has built so far: the lists of the
    dataset, [self.graphs] and the local counter [discarded]. *)
Record Built := {
  built_dataset : AMRDataset.t;
  built_graphs : list Graph;
  discarded : nat
}.

Definition discard (st : Built) : Built :=
  {| built_dataset := built_dataset st; built_graphs := built_graphs st;
     discarded := S (discarded st) |}.

(** The appends at the end of an iteration. *)
Definition append_example (st : Built) (g : Graph) (snt : string) (x : list Z)
    (token_en : string) (x_en x_teacher l : list Z) (e : gmap string value) : Built :=
  let ds := built_dataset st in
  {| built_dataset :=
       {| AMRDataset.rank := AMRDataset.rank ds;
          AMRDataset.tokenizer := AMRDataset.tokenizer ds;
          AMRDataset.teacher_tokenizer := AMRDataset.teacher_tokenizer ds;
          AMRDataset.sentences := AMRDataset.sentences ds ++ [snt];
          AMRDataset.tokenized := AMRDataset.tokenized ds ++ [x];
          AMRDataset.sentences_en := AMRDataset.sentences_en ds ++ [token_en];
          AMRDataset.tokenized_en := AMRDataset.tokenized_en ds ++ [x_en];
          AMRDataset.sentences_teacher := AMRDataset.sentences_teacher ds ++ [token_en];
          AMRDataset.tokenized_teacher := AMRDataset.tokenized_teacher ds ++ [x_teacher];
          AMRDataset.linearized := AMRDataset.linearized ds ++ [l];
          AMRDataset.linearized_extra := AMRDataset.linearized_extra ds ++ [e] |};
     built_graphs := built_graphs st ++ [g];
     discarded := discarded st |}.

(** Truth value of [remove_longer_than] ([None] or an integer) and of
    [token_en] ([None] or a string). *)
Definition truthy_int (n : option Z) : bool :=
  match n with Some n => negb (bool_decide (n = 0)) | None => false end.
Definition truthy_str (s : option string) : bool :=
  match s with Some s => negb (bool_decide (s = ""%string)) | None => false end.

(** One iteration of [for g in graphs]. The test [x.size(0) / len(l) > 5.]
    divides and compares floating-point numbers; the division by zero is
    modelled, and for a divisor other than zero the outcome of the test is
    the parameter [exceeds_5]. *)
Definition init_step (tokenizer : TokenizerObj) (teacher_tokenizer : option TokenizerObj)
    (exceeds_5 : nat → nat → bool) (is_train : bool) (remove_longer_than : option Z)
    (st : Built) (g : Graph) : outcome Built :=
  let '(l, e) := linearize tokenizer g in
  lang ← metadata_get g "snt_lang";
  snt ← metadata_get g "snt";
  let x := encode tokenizer lang snt in
  if is_train && truthy_int remove_longer_than
     && bool_decide (Z.of_nat (length l) > default 0 remove_longer_than)
  then mret (discard st)
  else
    bad ← (if is_train then
             if bool_decide (length l = 0%nat) then Fails ZeroDivisionError
             else mret (exceeds_5 (length x) (length l))
           else mret false);
    if (bad : bool) then mret (discard st)
    else
      let token_en := metadata g !! "tok-en" in
      let '(token_en, x_en) :=
        if truthy_str token_en && negb (bool_decide (lang = "en_XX"%string))
        then (default ""%string token_en,
              encode tokenizer "en_XX" (default ""%string token_en))
        else (snt, x) in
      let x_teacher :=
        match teacher_tokenizer with
        | Some t => encode t (src_lang t) token_en
        | None => x_en
        end in
      mret (append_example st g snt x token_en x_en x_teacher l e).

Fixpoint init_loop (tokenizer : TokenizerObj) (teacher_tokenizer : option TokenizerObj)
    (exceeds_5 : nat → nat → bool) (is_train : bool) (remove_longer_than : option Z)
    (graphs : list Graph) (st : Built) : outcome Built :=
  match graphs with
  | [] => mret st
  | g :: graphs' =>
      st' ← init_step tokenizer teacher_tokenizer exceeds_5 is_train
              remove_longer_than st g;
      init_loop tokenizer teacher_tokenizer exceeds_5 is_train remove_longer_than
        graphs' st'
  end.

(** [AMRDataset.__init__], from the graphs that [read_raw_amr_data] returned.
    The teacher tokenizer, when given, is an object other than the
    tokenizer. *)
Definition AMRDataset_init (graphs : list Graph) (tokenizer : TokenizerObj)
    (exceeds_5 : nat → nat → bool) (remove_longer_than : option Z)
    (evaluation : bool) (teacher_tokenizer : option TokenizerObj)
    (rank world_size : nat) : outcome Built :=
  graphs ← slice_from_step rank world_size graphs;
  let start :=
    {| built_dataset :=
         {| AMRDataset.rank := rank;
            AMRDataset.tokenizer := attrs tokenizer;
            AMRDataset.teacher_tokenizer :=
              attrs (default tokenizer teacher_tokenizer);
            AMRDataset.sentences := [];
            AMRDataset.tokenized := [];
            AMRDataset.sentences_en := [];
            AMRDataset.tokenized_en := [];
            AMRDataset.sentences_teacher := [];
            AMRDataset.tokenized_teacher := [];
            AMRDataset.linearized := [];
            AMRDataset.linearized_extra := [] |};
       built_graphs := [];
       discarded := 0 |} in
  init_loop tokenizer teacher_tokenizer exceeds_5 (negb evaluation)
    remove_longer_than graphs start.

(** What the loop of the constructor keeps true of what it has built. *)
Definition aligned (tokenizer : TokenizerObj) (teacher : option TokenizerObj)
    (st : Built) : Prop :=
  let ds := built_dataset st in
  AMRDataset.wf ds
  ∧ length (built_graphs st) = AMRDataset.len ds
  ∧ AMRDataset.linearized ds = (λ g, (linearize tokenizer g).1) <$> built_graphs st
  ∧ AMRDataset.linearized_extra ds
    = (λ g, (linearize tokenizer g).2) <$> built_graphs st
  ∧ AMRDataset.sentences_teacher ds = AMRDataset.sentences_en ds
  ∧ (teacher = None → AMRDataset.tokenized_teacher ds = AMRDataset.tokenized_en ds).

(** A tokenizer, and four graphs to build datasets from: the linearization
    of a graph has as many tokens as its handle says, a sentence as many as
    it has characters. *)
Definition toy_tokenizer : TokenizerObj :=
  {| attrs := {| pad_token_id := 1 |};
     src_lang := "en_XX";
     linearize := λ g, (replicate (graph_handle g) 4,
                        {[ "graphs"%string := VObj (graph_handle g);
                           "linearized_graphs"%string := VObj 0 ]});
     encode := λ lang snt, replicate (String.length snt) 7 |}.

Definition toy_graph (handle : nat) (snt lang : string) : Graph :=
  {| metadata := {[ "snt"%string := snt; "snt_lang"%string := lang ]};
     graph_handle := handle |}.

Definition toy_graphs : list Graph :=
  [ toy_graph 3 "ab" "en_XX"; toy_graph 1 "abcdefgh" "it_IT";
    toy_graph 2 "a" "en_XX"; toy_graph 6 "abcd" "en_XX" ].

(** The test of the constructor, on lengths. *)
Definition toy_exceeds_5 (x l : nat) : bool := bool_decide (5 * l < x)%nat.

(** The training dataset built from [toy_graphs] with
    [remove_longer_than = 5], on one rank. *)
Definition toy_built : Built :=
  match AMRDataset_init toy_graphs toy_tokenizer toy_exceeds_5 (Some 5) false
          None 0 1 with
  | Done b => b
  | Fails _ =>
      {| built_dataset := ds_empty; built_graphs := []; discarded := 0 |}
  end.

(** ** Merging the predictions of the ranks ([smatch_eval] in [train.py])

    [read rk] is the list of pieces read back from the file of rank [rk].
    [pieces = [pred_pieces[i % world_size][i // world_size]
               for i in range(tot)]]. *)
Definition merge_pieces {A} (world_size : nat) (read : nat → list A)
  : result (list A) :=
  let pred_pieces := read <$> seq 0 world_size in
  let tot := sum_list (length <$> pred_pieces) in
  mapM (λ i, row ← index pred_pieces (i `mod` world_size)%nat;
             index row (i `div` world_size)%nat)
       (seq 0 tot).

(** *** The files of the ranks

    A Python string is the string of the bytes of its UTF-8 form, in which
    the files are written and read; the line feed and the carriage return
    are the bytes 10 and 13. *)
Definition LF : ascii := "010"%char.
Definition CR : ascii := "013"%char.

(** ['\n\n'.join(pieces)]. *)
Fixpoint join_blank_line (pieces : list string) : string :=
  match pieces with
  | [] => ""
  | p :: rest =>
      match rest with
      | [] => p
      | _ => p +:+ String LF (String LF (join_blank_line rest))
      end
  end.

(** [text.split('\n\n')]: the text is cut at the occurrences of the
    separator found from left to right, an occurrence starting where the
    previous one ended at the earliest. [acc] is the piece being read. *)
Fixpoint split_blank_line (acc text : string) : list string :=
  match text with
  | "" => [acc]
  | String c rest =>
      match rest with
      | "" => [acc +:+ String c ""]
      | String c' rest' =>
          if bool_decide (c = LF) && bool_decide (c' = LF)
          then acc :: split_blank_line "" rest'
          else split_blank_line (acc +:+ String c "") rest
      end
  end.

(** [open().read()] of a file written by [write_text], on a POSIX system:
    the text comes back with every ["\r\n"] and every other ["\r"] turned
    into ["\n"] (universal newlines). *)
Fixpoint universal_newlines (text : string) : string :=
  match text with
  | "" => ""
  | String c rest =>
      if bool_decide (c = CR) then
        match rest with
        | "" => String LF ""
        | String c' rest' =>
            if bool_decide (c' = LF) then String LF (universal_newlines rest')
            else String LF (universal_newlines rest)
        end
      else String c (universal_newlines rest)
  end.

(** [pred_path.write_text('\n\n'.join(pieces))] and, on rank 0,
    [pred_path.open().read().split('\n\n')]. *)
Definition write_text (pieces : list string) : string := join_blank_line pieces.

Definition read_pieces (file : string) : list string :=
  split_blank_line "" (universal_newlines file).

(** The loop of rank 0 over the files of the ranks, [files rk] being the
    text of the file of rank [rk]. *)
Definition merge_files (world_size : nat) (files : nat → string)
  : result (list string) :=
  merge_pieces world_size (λ rk, read_pieces (files rk)).

(** A piece that the file gives back as it was written: it holds no
    carriage return and no blank line, and does not end with a line feed. *)
Fixpoint clean_piece (p : string) : bool :=
  match p with
  | "" => true
  | String c rest =>
      negb (bool_decide (c = CR))
      && match rest with
         | "" => negb (bool_decide (c = LF))
         | String c' _ => negb (bool_decide (c = LF) && bool_decide (c' = LF))
         end
      && clean_piece rest
  end.

(** ** The greedy rule

    Between two consecutive groups: the first example of the later group
    did not fit into the earlier one. *)
Fixpoint greedy_chain (self : Loader) (groups : list (list nat)) : Prop :=
  match groups with
  | a :: (b :: _) as rest =>
      (∀ i, head b = Some i →
            group_cost (dataset self) (a ++ [i]) > batch_size self)
      ∧ greedy_chain self rest
  | _ => True
  end.

(** * Properties *)

(** ** The error monad *)

Lemma mapM_Ok {A B} (f : A → result B) (h : A → B) (l : list A) :
  (∀ x, x ∈ l → f x = Ok (h x)) → mapM f l = Ok (h <$> l).
Proof.
  induction l as [|a l IH]; intros Hf; [done|].
  cbn. rewrite (Hf a) by left. cbn.
  rewrite IH; [done|]. intros x Hx. apply Hf. by right.
Qed.

Lemma index_Ok {A} (l : list A) (i : nat) (a : A) :
  l !! i = Some a → index l i = Ok a.
Proof. unfold index. by intros ->. Qed.

Lemma index_lt {A} (l : list A) (i : nat) :
  (i < length l)%nat → ∃ a, l !! i = Some a ∧ index l i = Ok a.
Proof.
  intros Hi. destruct (lookup_lt_is_Some_2 l i Hi) as [a Ha].
  exists a. split; [done|]. by apply index_Ok.
Qed.

(** ** [random.shuffle] permutes its argument *)

Section shuffle_facts.
Context {A : Type}.
Implicit Types x : list A.

Lemma swap_length i j x : length (Random.swap i j x) = length x.
Proof.
  unfold Random.swap. destruct (x !! i), (x !! j); try done.
  by rewrite !length_insert.
Qed.

Lemma swap_lookup i j x k :
  (i < length x)%nat → (j < length x)%nat →
  Random.swap i j x !! k =
    x !! (if decide (k = j) then i else if decide (k = i) then j else k).
Proof.
  intros Hi Hj. unfold Random.swap.
  destruct (lookup_lt_is_Some_2 x i Hi) as [a Ha].
  destruct (lookup_lt_is_Some_2 x j Hj) as [b Hb].
  rewrite Ha, Hb.
  destruct (decide (k = j)) as [->|Hkj].
  - rewrite list_lookup_insert_eq by (by rewrite length_insert). done.
  - rewrite list_lookup_insert_ne by done.
    destruct (decide (k = i)) as [->|Hki].
    + by rewrite list_lookup_insert_eq.
    + by rewrite list_lookup_insert_ne.
Qed.

Lemma swap_Permutation i j x : Random.swap i j x ≡ₚ x.
Proof.
  destruct (decide (i < length x)%nat) as [Hi|Hi]; last first.
  { unfold Random.swap. rewrite (lookup_ge_None_2 x i) by lia. done. }
  destruct (decide (j < length x)%nat) as [Hj|Hj]; last first.
  { unfold Random.swap. rewrite (lookup_ge_None_2 x j) by lia.
    by destruct (x !! i). }
  apply Permutation_inj. split; [apply swap_length|].
  exists (λ k, if decide (k = j) then i else if decide (k = i) then j else k).
  split.
  - intros k1 k2 Hk. repeat case_decide; congruence.
  - intros k. by apply swap_lookup.
Qed.

Lemma shuffle_from_Permutation i x g : (Random.shuffle_from i x g).1 ≡ₚ x.
Proof.
  revert x g. induction i as [|i IH]; intros x g; [done|].
  cbn. rewrite IH. apply swap_Permutation.
Qed.

Lemma shuffle_Permutation x g : (Random.shuffle x g).1 ≡ₚ x.
Proof. apply shuffle_from_Permutation. Qed.
End shuffle_facts.

(** ** [list.sort] is a stable sort *)

Section sort_facts.
Context {A : Type} (key : A → Z).
Implicit Types l : list A.

Lemma insert_by_Permutation x l : insert_by key x l ≡ₚ x :: l.
Proof.
  induction l as [|y r IH]; [done|]. cbn.
  case_bool_decide; [done|]. rewrite IH. apply Permutation_swap.
Qed.

Lemma sort_by_Permutation l : sort_by key l ≡ₚ l.
Proof.
  induction l as [|x r IH]; [done|]. cbn.
  by rewrite insert_by_Permutation, IH.
Qed.

Lemma insert_by_sorted x l :
  StronglySorted (λ a b, key a ≤ key b) l →
  StronglySorted (λ a b, key a ≤ key b) (insert_by key x l).
Proof.
  induction 1 as [|y r Hr IH Hy]; cbn.
  { repeat constructor. }
  case_bool_decide as Hxy.
  - constructor; [by constructor|].
    constructor; [done|].
    eapply Forall_impl; [exact Hy|]. cbn. intros; lia.
  - constructor; [done|].
    rewrite insert_by_Permutation. constructor; [lia|done].
Qed.

Lemma sort_by_sorted l : StronglySorted (λ a b, key a ≤ key b) (sort_by key l).
Proof.
  induction l as [|x r IH]; cbn; [constructor|]. by apply insert_by_sorted.
Qed.

Lemma insert_by_stable x l k :
  filter (λ y, key y = k) (insert_by key x l) = filter (λ y, key y = k) (x :: l).
Proof.
  induction l as [|y r IH]; [done|]. cbn [insert_by].
  case_bool_decide as Hxy; [done|].
  rewrite (filter_cons _ y), IH, !(filter_cons _ x), !(filter_cons _ y).
  repeat case_decide; try done; lia.
Qed.

Lemma sort_by_stable l k :
  filter (λ y, key y = k) (sort_by key l) = filter (λ y, key y = k) l.
Proof.
  induction l as [|x r IH]; [done|]. cbn [sort_by].
  by rewrite insert_by_stable, !(filter_cons _ x), IH.
Qed.

(** Sorting the decorated list and dropping the keys sorts the list. *)
Lemma insert_by_decorated x l :
  insert_by fst (key x, x) ((λ y, (key y, y)) <$> l)
  = (λ y, (key y, y)) <$> insert_by key x l.
Proof.
  induction l as [|y r IH]; [done|]. cbn.
  case_bool_decide; [done|]. cbn. by rewrite IH.
Qed.

Lemma sort_by_decorated l :
  sort_by fst ((λ y, (key y, y)) <$> l) = (λ y, (key y, y)) <$> sort_by key l.
Proof.
  induction l as [|x r IH]; [done|]. cbn. by rewrite IH, insert_by_decorated.
Qed.

Lemma list_sort_Ok (pykey : A → result Z) l :
  (∀ x, x ∈ l → pykey x = Ok (key x)) →
  list_sort pykey l = Ok (sort_by key l).
Proof.
  intros Hk. unfold list_sort. rewrite (mapM_Ok _ key) by done. cbn.
  f_equal.
  replace (zip (key <$> l) l) with ((λ y, (key y, y)) <$> l).
  - rewrite sort_by_decorated, <-list_fmap_compose.
    rewrite <-(list_fmap_id (sort_by key l)) at 2. done.
  - clear Hk. induction l as [|x r IH]; [done|]. cbn. by rewrite IH.
Qed.
End sort_facts.

(** ** The sort of the id list *)

(** The key function of the sort, on ids in range. *)
Lemma sort_key_Ok (lens : list (list Z)) (x : nat) :
  (x < length lens)%nat →
  (n ← index (length <$> lens) x; mret (- Z.of_nat n))
  = Ok (- Z.of_nat (length (default [] (lens !! x)))).
Proof.
  intros Hx. destruct (lookup_lt_is_Some_2 lens x Hx) as [l Hl].
  rewrite (index_Ok _ _ (length l)) by (by rewrite list_lookup_fmap, Hl).
  by rewrite Hl.
Qed.

Lemma StronglySorted_mono {A} (R R' : relation A) (l : list A) :
  (∀ a b, R a b → R' a b) → StronglySorted R l → StronglySorted R' l.
Proof.
  intros HR. induction 1 as [|x l _ IH Hx]; constructor; [done|].
  eapply Forall_impl; [exact Hx|]. apply HR.
Qed.

Lemma sort_by_desc (len : nat → Z) (ids : list nat) :
  stable_sorted_desc len ids (sort_by (λ x, - len x) ids).
Proof.
  split; [apply sort_by_Permutation|]. split.
  - eapply StronglySorted_mono; [|apply (sort_by_sorted (λ x, - len x))].
    cbn. intros; lia.
  - intros k.
    rewrite (list_filter_iff _ (λ x, - len x = - k)) by (intros; lia).
    rewrite sort_by_stable. apply list_filter_iff. intros; lia.
Qed.


(** [stable_sorted_desc] leaves no choice: the output is determined. *)
Lemma stable_sorted_desc_unique (len : nat → Z) (input o1 o2 : list nat) :
  stable_sorted_desc len input o1 → stable_sorted_desc len input o2 → o1 = o2.
Proof.
  intros (Hp1 & Hs1 & Hf1) (Hp2 & Hs2 & Hf2).
  assert (Hp : o1 ≡ₚ o2) by (by rewrite Hp1, Hp2).
  assert (Hf : ∀ k, filter (λ x, len x = k) o1 = filter (λ x, len x = k) o2).
  { intros k. by rewrite Hf1, Hf2. }
  clear Hp1 Hp2 Hf1 Hf2 input. revert o2 Hp Hs2 Hf.
  induction Hs1 as [|a r1 Hr1 IH Ha]; intros o2 Hp Hs2 Hf.
  { by apply Permutation_nil_l in Hp. }
  destruct o2 as [|b r2]; [by apply Permutation_nil_r in Hp|].
  apply StronglySorted_inv in Hs2 as [Hr2 Hb].
  rewrite Forall_forall in Ha, Hb.
  assert (Hlen : len a = len b).
  { assert (a ∈ b :: r2) as Hab by (rewrite <-Hp; left).
    assert (b ∈ a :: r1) as Hba by (rewrite Hp; left).
    apply elem_of_cons in Hab as [->|Hab]; [done|].
    apply elem_of_cons in Hba as [->|Hba]; [done|].
    apply Ha in Hba. apply Hb in Hab. lia. }
  assert (a = b) as <-.
  { specialize (Hf (len a)).
    rewrite filter_cons_True in Hf by done.
    rewrite filter_cons_True in Hf by done. by simplify_eq. }
  f_equal. apply IH; [by eapply Permutation_cons_inv|done|].
  intros k. specialize (Hf k). rewrite !(filter_cons _ a) in Hf.
  case_decide; by simplify_eq.
Qed.

(** ** The grouping loop *)

(** The recursion on the reversed list is the loop [while ids: idx =
    ids.pop() ...]: on an empty list only the final flush is left, otherwise
    the last id is processed and the loop goes on with the others. *)
Lemma sampler_while_nil (self : Loader) (st : batch_state) :
  sampler_while self [] st
  = Ok (if truthy (batch_ids st) then [(discharge st).1] else []).
Proof. done. Qed.

Lemma sampler_while_pop (self : Loader) (ids : list nat) (idx : nat) (st : batch_state) :
  sampler_while self (ids ++ [idx]) st
  = '(out, st') ← sampler_step self idx st;
    rest ← sampler_while self ids st';
    mret (out ++ rest).
Proof. unfold sampler_while. by rewrite reverse_snoc. Qed.


Section sampler_facts.
Context (self : Loader).
Abbreviation ds := (dataset self).
Abbreviation B := (batch_size self).

Lemma group_longest_nonneg grp : 0 ≤ group_longest ds grp.
Proof. induction grp; cbn; [done|]. unfold group_longest in *. cbn. lia. Qed.

Lemma group_longest_snoc grp i :
  group_longest ds (grp ++ [i])
  = Z.max (group_longest ds grp) (bucketing_length ds i).
Proof.
  unfold group_longest. induction grp as [|j grp IH]; cbn; [lia|].
  rewrite IH. lia.
Qed.

Lemma group_longest_ge grp i :
  i ∈ grp → bucketing_length ds i ≤ group_longest ds grp.
Proof.
  unfold group_longest. induction 1; cbn; lia.
Qed.

Lemma batch_inv_init : batch_inv self batch_init.
Proof. by split. Qed.

Lemma sampler_step_spec idx st :
  (idx < length (AMRDataset.linearized ds))%nat →
  batch_inv self st →
  ∃ out st',
    sampler_step self idx st = Ok (out, st')
    ∧ batch_inv self st'
    ∧ concat out ++ batch_ids st' = batch_ids st ++ [idx]
    ∧ Forall (group_ok self) out.
Proof.
  intros Hidx [Hn Hlg Hb].
  destruct (index_lt _ _ Hidx) as (l & Hl & Hil).
  assert (Hsize : Z.of_nat (length l) = bucketing_length ds idx).
  { unfold bucketing_length. by rewrite Hl. }
  unfold sampler_step. rewrite Hil. cbn -[Z.mul Z.max Z.add]. rewrite Hsize.
  pose proof (group_longest_nonneg (batch_ids st)) as Hnn.
  destruct st as [lg n nt ids]. cbn -[Z.mul Z.max Z.add] in *. subst lg n.
  assert (Hreset : ∀ a b c : Z,
    batch_inv self {| batch_longest := a * 0; batch_nexamps := b * 0;
                      batch_ntokens := c * 0; batch_ids := [] |}).
  { intros. split; cbn; [lia|lia|done]. }
  destruct ids as [|i0 ids'].
  - (* the current group is empty *)
    rewrite andb_false_r. cbn -[Z.mul Z.max Z.add].
    rewrite (bool_decide_eq_true_2 (1%nat = 1%nat)) by done.
    case_bool_decide as Hover; cbn -[Z.mul Z.max Z.add].
    + eexists _, _. split; [done|]. split; [apply Hreset|]. split; [done|].
      apply Forall_singleton. split; [done|].
      right. exists idx. split; [done|]. lia.
    + eexists _, _. split; [done|]. split; [|done].
      split; cbn -[Z.mul Z.max Z.add]; [lia|lia|].
      intros _. unfold group_cost, group_longest. cbn -[Z.mul Z.max Z.add]. lia.
  - rewrite andb_true_r.
    case_bool_decide as Hcand; cbn -[Z.mul Z.max Z.add].
    + (* the candidate cost is over the budget: flush first *)
      assert (Hold : group_ok self (i0 :: ids')).
      { split; [done|]. left. by apply Hb. }
      rewrite (bool_decide_eq_true_2 (1%nat = 1%nat)) by done.
      case_bool_decide as Hover; cbn -[Z.mul Z.max Z.add].
      * eexists _, _. split; [done|]. split; [apply Hreset|].
        split; [by rewrite app_nil_r|].
        apply Forall_cons. split; [done|]. apply Forall_singleton.
        split; [done|]. right. exists idx. split; [done|]. lia.
      * eexists _, _. split; [done|]. split; [|split; [cbn; by rewrite app_nil_r|by apply Forall_singleton]].
        split; cbn -[Z.mul Z.max Z.add]; [lia|lia|].
        intros _. unfold group_cost, group_longest. cbn -[Z.mul Z.max Z.add]. lia.
    + (* the example joins the current group *)
      rewrite bool_decide_eq_false_2 by (rewrite length_app; cbn; lia).
      cbn -[Z.mul Z.max Z.add].
      eexists _, _. split; [done|]. split; [|done].
      pose proof (group_longest_snoc (i0 :: ids') idx) as Hsnoc.
      unfold group_cost, group_longest in *.
      split; cbn -[Z.mul Z.max Z.add] in *.
      * rewrite length_app. cbn. lia.
      * lia.
      * intros _. unfold group_cost, group_longest.
        cbn -[Z.mul Z.max Z.add]. rewrite Hsnoc, length_app.
        rewrite Z.max_comm in Hcand. cbn -[Z.mul Z.max Z.add]. lia.
Qed.

Lemma sampler_loop_spec stack st :
  Forall (λ idx, (idx < length (AMRDataset.linearized ds))%nat) stack →
  batch_inv self st →
  ∃ groups,
    sampler_loop self stack st = Ok groups
    ∧ concat groups = batch_ids st ++ stack
    ∧ Forall (group_ok self) groups.
Proof.
  intros Hstack. revert st.
  induction Hstack as [|idx stack Hidx _ IH]; intros st Hinv.
  - destruct Hinv as [_ _ Hb]. destruct st as [lg n nt ids].
    cbn in *. destruct ids as [|i0 ids']; cbn.
    + by exists [].
    + exists [i0 :: ids']. split; [done|]. split; [by cbn; rewrite ?app_nil_r|].
      apply Forall_singleton. split; [done|]. left. by apply Hb.
  - destruct (sampler_step_spec idx st Hidx Hinv)
      as (out & st' & Hstep & Hinv' & Hcat & Hout).
    destruct (IH st' Hinv') as (rest & Hrest & Hcat' & Hok).
    exists (out ++ rest). cbn. rewrite Hstep. cbn. rewrite Hrest. cbn.
    split; [done|]. split.
    + rewrite concat_app, Hcat', app_assoc, Hcat, <-app_assoc. done.
    + by apply Forall_app.
Qed.


(** The id list the loop starts from. *)
Lemma sampler_ids_spec g :
  AMRDataset.wf ds →
  let n := AMRDataset.len ds in
  let start := if shuffle self then Random.shuffle (seq 0 n) g
               else (seq 0 n, g) in
  let len := if shuffle self then bucketing_length ds else primary_length ds in
  sampler_ids self g
  = Ok (if sort self then sort_by (λ x, - len x) start.1 else start.1, start.2).
Proof.
  intros Hwf n start len. unfold sampler_ids. fold n.
  assert (Hstart : start.1 ≡ₚ seq 0 n).
  { subst start. destruct (shuffle self); [apply shuffle_Permutation|done]. }
  assert (Hlt : ∀ x, x ∈ start.1 → (x < n)%nat).
  { intros x Hx. rewrite Hstart in Hx. apply elem_of_seq in Hx. lia. }
  change (if shuffle self then Random.shuffle (seq 0 n) g else (seq 0 n, g))
    with start.
  destruct start as [ids g']. cbn in *.
  destruct (sort self); [|done].
  rewrite (list_sort_Ok (λ x, - len x)); [done|].
  intros x Hx. subst len. destruct (shuffle self).
  - apply sort_key_Ok. rewrite (AMRDataset.wf_linearized _ Hwf). by apply Hlt.
  - apply sort_key_Ok. rewrite (AMRDataset.wf_tokenized _ Hwf). by apply Hlt.
Qed.

Lemma sampler_ids_Permutation g :
  AMRDataset.wf ds →
  ∃ ids g', sampler_ids self g = Ok (ids, g')
            ∧ ids ≡ₚ seq 0 (AMRDataset.len ds).
Proof.
  intros Hwf. eexists _, _. split; [by apply sampler_ids_spec|].
  assert ((if shuffle self then Random.shuffle (seq 0 (AMRDataset.len ds)) g
           else (seq 0 (AMRDataset.len ds), g)).1 ≡ₚ seq 0 (AMRDataset.len ds))
    as Hstart.
  { destruct (shuffle self); [apply shuffle_Permutation|done]. }
  destruct (sort self); [|done]. by rewrite sort_by_Permutation.
Qed.

(** The sampler returns; its groups, put end to end, are the ids in the
    order in which they were popped; every group is as [group_ok] says. *)
Lemma sampler_spec g :
  AMRDataset.wf ds →
  ∃ ids g' groups,
    sampler_ids self g = Ok (ids, g')
    ∧ ids ≡ₚ seq 0 (AMRDataset.len ds)
    ∧ sampler self g = Ok (groups, g')
    ∧ concat groups = reverse ids
    ∧ Forall (group_ok self) groups.
Proof.
  intros Hwf.
  destruct (sampler_ids_Permutation g Hwf) as (ids & g' & Hids & Hperm).
  destruct (sampler_loop_spec (reverse ids) batch_init) as (groups & Hl & Hc & Hok).
  { apply Forall_forall. intros x Hx.
    rewrite reverse_Permutation, Hperm in Hx. apply elem_of_seq in Hx.
    rewrite (AMRDataset.wf_linearized _ Hwf). lia. }
  { apply batch_inv_init. }
  exists ids, g', groups. repeat split; try done.
  unfold sampler, sampler_while. rewrite Hids. cbn. rewrite Hl. done.
Qed.

Lemma group_ok_budget grp :
  group_ok self grp → (1 < length grp)%nat → group_cost ds grp ≤ B.
Proof.
  intros [_ [Hfit|(i & -> & _)]] Hlen; [done|]. cbn in Hlen. lia.
Qed.

Lemma group_ok_oversized grp idx :
  group_ok self grp → idx ∈ grp → bucketing_length ds idx > B → grp = [idx].
Proof.
  intros [Hne [Hfit|(i & -> & _)]] Hin Hover.
  - exfalso. pose proof (group_longest_ge _ _ Hin) as Hge.
    unfold group_cost in Hfit.
    assert (1 ≤ Z.of_nat (length grp)) by (destruct grp; [done|cbn; lia]).
    pose proof (group_longest_nonneg grp). nia.
  - apply list_elem_of_singleton in Hin. by subst.
Qed.
End sampler_facts.

(** ** The sampler: claims *)

Lemma concat_NoDup_unique {A} (gs : list (list A)) (x : A) k1 k2 g1 g2 :
  NoDup (concat gs) →
  gs !! k1 = Some g1 → gs !! k2 = Some g2 → x ∈ g1 → x ∈ g2 → k1 = k2.
Proof.
  revert k1 k2. induction gs as [|g gs IH]; intros k1 k2 Hnd H1 H2 Hx1 Hx2; [done|].
  cbn in Hnd. apply NoDup_app in Hnd as (Hg & Hdisj & Hrest).
  assert (Hin : ∀ k g', gs !! k = Some g' → x ∈ g' → x ∈ concat gs).
  { intros k g' Hk Hx. apply list_elem_of_In, in_concat. exists g'.
    split; apply list_elem_of_In; [by eapply list_elem_of_lookup_2|done]. }
  destruct k1 as [|k1], k2 as [|k2]; cbn in *.
  - done.
  - simplify_eq. exfalso. eapply Hdisj; eauto.
  - simplify_eq. exfalso. eapply Hdisj; eauto.
  - f_equal. eauto.
Qed.

(** C1. Every yielded group with more than one index costs at most the
    budget: its longest bucketing length times its number of indices is at
    most [batch_size]. Only a group of one index can cost more. *)
Theorem sampler_token_budget (self : Loader) (g g' : Random.state)
    (groups : list (list nat)) (grp : list nat) :
  AMRDataset.wf (dataset self) →
  sampler self g = Ok (groups, g') →
  grp ∈ groups →
  (1 < length grp)%nat →
  group_longest (dataset self) grp * Z.of_nat (length grp) ≤ batch_size self.
Proof.
  intros Hwf Hs Hin Hlen.
  destruct (sampler_spec self g Hwf) as (ids & g1 & groups1 & _ & _ & Hs1 & _ & Hok).
  rewrite Hs in Hs1. simplify_eq.
  rewrite Forall_forall in Hok. by apply group_ok_budget; [apply Hok|].
Qed.

Lemma sampler_token_budget_witness :
  group_longest (dataset (toy_loader ds_5_3_9 20 false false)) [2; 1]%nat
  * Z.of_nat (length [2; 1]%nat) ≤ 20.
Proof.
  apply (sampler_token_budget (toy_loader ds_5_3_9 20 false false) tape0 tape0
           [[2; 1]; [0]]%nat [2; 1]%nat).
  - by split.
  - reflexivity.
  - left.
  - cbn. lia.
Defined.

(** C2. For a dataset of any size [n] and a positive budget the sampler
    returns groups; put end to end they are a permutation of [0, ..., n-1],
    no group is empty, and every index is in a group at exactly one
    position of the sequence. *)
Theorem sampler_partition (self : Loader) (g : Random.state) :
  AMRDataset.wf (dataset self) →
  0 < batch_size self →
  ∃ groups g',
    sampler self g = Ok (groups, g')
    ∧ concat groups ≡ₚ seq 0 (AMRDataset.len (dataset self))
    ∧ Forall (λ grp, grp ≠ []) groups
    ∧ ∀ i, (i < AMRDataset.len (dataset self))%nat →
        ∃ k grp, groups !! k = Some grp ∧ i ∈ grp
                 ∧ ∀ k' grp', groups !! k' = Some grp' → i ∈ grp' → k' = k.
Proof.
  intros Hwf _.
  destruct (sampler_spec self g Hwf) as (ids & g' & groups & _ & Hperm & Hs & Hcat & Hok).
  assert (Hall : concat groups ≡ₚ seq 0 (AMRDataset.len (dataset self))).
  { by rewrite Hcat, reverse_Permutation. }
  exists groups, g'. split; [done|]. split; [done|]. split.
  { eapply Forall_impl; [exact Hok|]. by intros grp [? _]. }
  intros i Hi.
  assert (Hin : i ∈ concat groups).
  { rewrite Hall. apply elem_of_seq. lia. }
  apply list_elem_of_In, in_concat in Hin as (grp & Hgrp & Hi').
  apply list_elem_of_In, list_elem_of_lookup in Hgrp as [k Hk].
  apply list_elem_of_In in Hi'.
  exists k, grp. split; [done|]. split; [done|].
  intros k' grp' Hk' Hi''.
  eapply (concat_NoDup_unique groups i); eauto.
  rewrite Hall. apply NoDup_seq.
Qed.

Lemma sampler_partition_witness :
  ∃ groups g',
    sampler (toy_loader ds_5_3_9 20 true true) tape0 = Ok (groups, g')
    ∧ concat groups ≡ₚ seq 0 3
    ∧ Forall (λ grp, grp ≠ []) groups
    ∧ ∀ i, (i < 3)%nat →
        ∃ k grp, groups !! k = Some grp ∧ i ∈ grp
                 ∧ ∀ k' grp', groups !! k' = Some grp' → i ∈ grp' → k' = k.
Proof.
  apply (sampler_partition (toy_loader ds_5_3_9 20 true true) tape0).
  - by split.
  - reflexivity.
Defined.

(** C3. Shuffle off, sort off, three examples of bucketing lengths 5, 3
    and 9, budget 20: the sampler yields [[2, 1]] and then [[0]]. *)
Theorem sampler_scenario (self : Loader) (g : Random.state) :
  AMRDataset.len (dataset self) = 3%nat →
  length <$> AMRDataset.linearized (dataset self) = [5; 3; 9]%nat →
  batch_size self = 20 →
  shuffle self = false →
  sort self = false →
  sampler self g = Ok ([[2; 1]; [0]]%nat, g).
Proof.
  intros Hn Hlen HB Hsh Hso.
  unfold sampler, sampler_ids, sampler_while. rewrite Hn, Hsh, Hso. cbn.
  unfold sampler_step. rewrite HB.
  destruct (AMRDataset.linearized (dataset self)) as [|l0 [|l1 [|l2 [|]]]];
    try done.
  cbn in Hlen. injection Hlen as H0 H1 H2.
  cbn. rewrite H0, H1, H2. reflexivity.
Qed.

Lemma sampler_scenario_witness :
  sampler (toy_loader ds_5_3_9 20 false false) tape0
  = Ok ([[2; 1]; [0]]%nat, tape0).
Proof.
  apply (sampler_scenario (toy_loader ds_5_3_9 20 false false) tape0);
    reflexivity.
Defined.

(** An example longer than the budget closes the open group, if there is
    one, and is flushed alone in the same iteration. *)
Lemma sampler_step_oversized (self : Loader) (idx : nat) (st : batch_state) :
  (idx < length (AMRDataset.linearized (dataset self)))%nat →
  batch_inv self st →
  bucketing_length (dataset self) idx > batch_size self →
  sampler_step self idx st
  = Ok ((if truthy (batch_ids st) then [batch_ids st] else []) ++ [[idx]],
        {| batch_longest := Z.max (if truthy (batch_ids st)
                                   then batch_longest st * 0
                                   else batch_longest st)
                                  (bucketing_length (dataset self) idx) * 0;
           batch_nexamps := ((if truthy (batch_ids st)
                              then batch_nexamps st * 0
                              else batch_nexamps st) + 1) * 0;
           batch_ntokens := 0;
           batch_ids := [] |}).
Proof.
  intros Hidx [Hn Hlg _] Hover.
  destruct (index_lt _ _ Hidx) as (l & Hl & Hil).
  assert (Hsize : Z.of_nat (length l) = bucketing_length (dataset self) idx).
  { unfold bucketing_length. by rewrite Hl. }
  pose proof (group_longest_nonneg self (batch_ids st)) as Hnn.
  unfold sampler_step. rewrite Hil. cbn -[Z.mul Z.max Z.add]. rewrite Hsize.
  destruct st as [lg n nt ids]. cbn -[Z.mul Z.max Z.add] in *. subst lg n.
  destruct ids as [|i0 ids']; cbn -[Z.mul Z.max Z.add].
  - rewrite andb_false_r. cbn -[Z.mul Z.max Z.add].
    rewrite (bool_decide_eq_true_2 (1%nat = 1%nat)) by done.
    rewrite bool_decide_eq_true_2 by lia. cbn -[Z.mul Z.max Z.add].
    do 3 f_equal. lia.
  - rewrite bool_decide_eq_true_2 by nia. cbn -[Z.mul Z.max Z.add].
    rewrite (bool_decide_eq_true_2 (1%nat = 1%nat)) by done.
    rewrite bool_decide_eq_true_2 by lia. cbn -[Z.mul Z.max Z.add].
    do 3 f_equal. lia.
Qed.

(** C4. An example whose bucketing length alone exceeds the budget raises
    no error. The iteration that pops it ends with the yield of the group
    made of that example only and leaves no open group; in the output of
    the sampler the group that holds it holds nothing else. *)
Theorem sampler_oversized_alone (self : Loader) (idx : nat) :
  AMRDataset.wf (dataset self) →
  (idx < AMRDataset.len (dataset self))%nat →
  bucketing_length (dataset self) idx > batch_size self →
  (∀ st, batch_inv self st →
     ∃ out st', sampler_step self idx st = Ok (out, st')
                ∧ last out = Some [idx] ∧ batch_ids st' = [])
  ∧ (∀ g, ∃ groups g',
       sampler self g = Ok (groups, g')
       ∧ [idx] ∈ groups
       ∧ ∀ grp, grp ∈ groups → idx ∈ grp → grp = [idx]).
Proof.
  intros Hwf Hidx Hover. split.
  - intros st Hinv. eexists _, _. split.
    + apply sampler_step_oversized; [|done..].
      by rewrite (AMRDataset.wf_linearized _ Hwf).
    + split; [|done]. by rewrite last_snoc.
  - intros g.
    destruct (sampler_spec self g Hwf)
      as (ids & g' & groups & _ & Hperm & Hs & Hcat & Hok).
    exists groups, g'. split; [done|].
    rewrite Forall_forall in Hok.
    assert (Halone : ∀ grp, grp ∈ groups → idx ∈ grp → grp = [idx]).
    { intros grp Hgrp Hin. by eapply group_ok_oversized; [apply Hok|..]. }
    split; [|done].
    assert (Hin : idx ∈ concat groups).
    { rewrite Hcat, reverse_Permutation, Hperm. apply elem_of_seq. lia. }
    apply list_elem_of_In, in_concat in Hin as (grp & Hgrp & Hi).
    apply list_elem_of_In in Hgrp, Hi.
    by rewrite <-(Halone grp Hgrp Hi).
Qed.

Lemma sampler_oversized_alone_witness :
  (∀ st, batch_inv (toy_loader ds_5_50_3 10 false false) st →
     ∃ out st', sampler_step (toy_loader ds_5_50_3 10 false false) 1 st = Ok (out, st')
                ∧ last out = Some [1%nat] ∧ batch_ids st' = [])
  ∧ (∀ g, ∃ groups g',
       sampler (toy_loader ds_5_50_3 10 false false) g = Ok (groups, g')
       ∧ [1%nat] ∈ groups
       ∧ ∀ grp, grp ∈ groups → 1%nat ∈ grp → grp = [1%nat]).
Proof.
  apply (sampler_oversized_alone (toy_loader ds_5_50_3 10 false false) 1).
  - by split.
  - cbn. lia.
  - reflexivity.
Defined.

(** C5. With sort enabled the id list the loop starts from is a stable
    sort of the (possibly shuffled) ids: by descending bucketing length when
    shuffle is enabled, by descending primary length when it is not. *)
Theorem sampler_sort_key (self : Loader) (g : Random.state) :
  AMRDataset.wf (dataset self) →
  sort self = true →
  let n := AMRDataset.len (dataset self) in
  (shuffle self = true →
     ∃ ids, sampler_ids self g = Ok (ids, (Random.shuffle (seq 0 n) g).2)
            ∧ stable_sorted_desc (bucketing_length (dataset self))
                (Random.shuffle (seq 0 n) g).1 ids)
  ∧ (shuffle self = false →
       ∃ ids, sampler_ids self g = Ok (ids, g)
              ∧ stable_sorted_desc (primary_length (dataset self)) (seq 0 n) ids).
Proof.
  intros Hwf Hsort n.
  pose proof (sampler_ids_spec self g Hwf) as Hspec. cbn zeta in Hspec.
  fold n in Hspec. rewrite Hsort in Hspec.
  split; intros Hsh; rewrite Hsh in Hspec; eexists; (split; [exact Hspec|]);
    apply sort_by_desc.
Qed.

Lemma sampler_sort_key_witness :
  (shuffle (toy_loader ds_5_3_9 20 false true) = true →
     ∃ ids, sampler_ids (toy_loader ds_5_3_9 20 false true) tape0
            = Ok (ids, (Random.shuffle (seq 0 3) tape0).2)
            ∧ stable_sorted_desc (bucketing_length ds_5_3_9)
                (Random.shuffle (seq 0 3) tape0).1 ids)
  ∧ (shuffle (toy_loader ds_5_3_9 20 false true) = false →
       ∃ ids, sampler_ids (toy_loader ds_5_3_9 20 false true) tape0 = Ok (ids, tape0)
              ∧ stable_sorted_desc (primary_length ds_5_3_9) (seq 0 3) ids).
Proof.
  apply (sampler_sort_key (toy_loader ds_5_3_9 20 false true) tape0).
  - by split.
  - reflexivity.
Defined.

(** C10. With shuffle disabled the sampler consults no random source: its
    result is the same for every state of the generator, which it returns
    unchanged, and it depends on the loader only through the dataset, the
    budget and the sort flag. *)
Theorem sampler_deterministic (self1 self2 : Loader) (g1 g2 : Random.state) :
  shuffle self1 = false → shuffle self2 = false →
  dataset self1 = dataset self2 →
  batch_size self1 = batch_size self2 →
  sort self1 = sort self2 →
  fst <$> sampler self1 g1 = fst <$> sampler self2 g2
  ∧ ∀ groups g', sampler self1 g1 = Ok (groups, g') → g' = g1.
Proof.
  intros Hsh1 Hsh2 Hds HB Hso.
  assert (Hids : ∀ self g, shuffle self = false →
            sampler_ids self g
            = (λ ids, (ids, g)) <$>
                (if sort self
                 then list_sort
                        (λ x, n ← index (length <$> AMRDataset.tokenized (dataset self)) x;
                              mret (- Z.of_nat n))
                        (seq 0 (AMRDataset.len (dataset self)))
                 else mret (seq 0 (AMRDataset.len (dataset self))))).
  { intros self g Hsh. unfold sampler_ids. rewrite Hsh.
    destruct (sort self); [|done]. by destruct (list_sort _ _). }
  pose proof (Hids self1 g1 Hsh1) as Hr1.
  pose proof (Hids self2 g2 Hsh2) as Hr.
  rewrite <-Hds, <-Hso in Hr.
  set (r := if sort self1 then _ else _) in Hr1, Hr.
  assert (Hloop : ∀ ids st, sampler_while self1 ids st = sampler_while self2 ids st).
  { intros ids st. unfold sampler_while. revert st.
    induction (reverse ids) as [|i stack IH]; intros st; [done|].
    cbn. unfold sampler_step. rewrite Hds, HB.
    destruct (index _ i); [|done]. cbn.
    repeat (match goal with |- context [if ?b then _ else _] => destruct b end;
            cbn; rewrite ?IH); done. }
  unfold sampler. rewrite Hr1, Hr. destruct r as [ids|e]; cbn; [|done].
  rewrite Hloop. split.
  - by destruct (sampler_while self2 ids batch_init).
  - intros groups g'. destruct (sampler_while self2 ids batch_init); cbn;
      unfold mret, result_ret; intros ?; by simplify_eq.
Qed.

Lemma sampler_deterministic_witness :
  fst <$> sampler (toy_loader ds_5_3_9 20 false true) tape0
  = fst <$> sampler (set_device (cuda 0) (toy_loader ds_5_3_9 20 false true))
              {| Random.tape := λ n, (7 * n + 3)%nat; Random.pos := 5 |}
  ∧ ∀ groups g', sampler (toy_loader ds_5_3_9 20 false true) tape0 = Ok (groups, g')
                 → g' = tape0.
Proof.
  apply (sampler_deterministic (toy_loader ds_5_3_9 20 false true)
           (set_device (cuda 0) (toy_loader ds_5_3_9 20 false true)));
    reflexivity.
Defined.

(** ** Collation *)

Lemma mapM_Ok_Forall2 {A B} (f : A → result B) (l : list A) (k : list B) :
  mapM f l = Ok k ↔ Forall2 (λ x y, f x = Ok y) l k.
Proof.
  split.
  - revert k. induction l as [|x l IH]; intros k Hk; cbn in Hk.
    + unfold mret, result_ret in Hk. simplify_eq. constructor.
    + destruct (f x) as [y|] eqn:Hy; [|done]. cbn in Hk.
      destruct (mapM f l) as [k'|]; [|done]. cbn in Hk.
      unfold mret, result_ret in Hk. simplify_eq. constructor; eauto.
  - induction 1 as [|x y l k Hxy _ IH]; [done|]. cbn. rewrite Hxy. cbn.
    by rewrite IH.
Qed.

(** Integers that a double holds exactly pass unchanged through the
    conversions of [pad_sequence]. *)
Lemma float_of_int_exact (n : Z) :
  - 2 ^ 53 ≤ n ≤ 2 ^ 53 → float_of_int n = Ok n.
Proof.
  intros Hn. unfold float_of_int, round_to_double.
  rewrite (bool_decide_eq_true_2 (Z.abs n ≤ 2 ^ 53)) by lia.
  rewrite bool_decide_eq_false_2; [done|]. lia.
Qed.

Lemma int64_of_float_exact (n : Z) :
  - 2 ^ 53 ≤ n ≤ 2 ^ 53 → int64_of_float n = Ok n.
Proof.
  intros Hn. unfold int64_of_float. rewrite bool_decide_eq_true_2; [done|]. lia.
Qed.

Lemma pad_sequence_exact (seqs : list (list Z)) (padding_value : Z) :
  - 2 ^ 53 ≤ padding_value ≤ 2 ^ 53 →
  seqs ≠ [] →
  pad_sequence seqs padding_value
  = Ok ((λ s : list Z,
           s ++ replicate (max_list (length <$> seqs) - length s)%nat padding_value)
        <$> seqs).
Proof.
  intros Hn Hne. unfold pad_sequence. rewrite float_of_int_exact by done. cbn.
  destruct seqs as [|t seqs]; [done|].
  rewrite int64_of_float_exact by done. done.
Qed.

(** Whenever [pad_sequence] returns, its rows are the sequences, each
    continued by one and the same fill value up to the longest length. *)
Lemma pad_sequence_inv (seqs rows : list (list Z)) (padding_value : Z) :
  pad_sequence seqs padding_value = Ok rows →
  seqs ≠ [] ∧
  ∃ fill : Z,
    rows = (λ s : list Z,
              s ++ replicate (max_list (length <$> seqs) - length s)%nat fill)
           <$> seqs.
Proof.
  unfold pad_sequence. intros H.
  destruct (float_of_int padding_value) as [f|]; [|done]. cbn in H.
  destruct seqs as [|t seqs]; [done|]. split; [done|].
  destruct (int64_of_float f) as [fill|]; [|done]. cbn in H.
  unfold mret, result_ret in H. simplify_eq. by exists fill.
Qed.

Section to_tensor_facts.
Context (padding_value : Z).

Abbreviation pad_row m :=
  (λ s : list Z, s ++ replicate (m - length s)%nat padding_value).
Abbreviation mask_row :=
  (fmap (M := list) (λ v : Z, if bool_decide (v ≠ padding_value) then 1 else 0)).

Lemma to_tensor_Ok samples key_value device (seqs : list (list Z)) :
  - 2 ^ 53 ≤ padding_value ≤ 2 ^ 53 →
  samples ≠ [] →
  Forall2 (λ (s : gmap string value) t, s !! key_value = Some (VTensor t))
    samples seqs →
  let rows := pad_row (max_list (length <$> seqs)) <$> seqs in
  to_tensor samples key_value padding_value device true
  = Ok ({| data := rows; tdevice := device |},
        Some {| data := mask_row <$> rows; tdevice := device |}).
Proof.
  intros Hn Hne HF rows. unfold to_tensor.
  assert (mapM (λ s, getkey s key_value) samples = Ok (VTensor <$> seqs)) as ->.
  { apply mapM_Ok_Forall2. apply Forall2_fmap_r.
    eapply Forall2_impl; [exact HF|]. cbn. intros s t Hs.
    unfold getkey. by rewrite Hs. }
  cbn -[pad_sequence].
  assert (mapM as_tensor (VTensor <$> seqs) = Ok seqs) as ->.
  { apply mapM_Ok_Forall2. apply Forall2_fmap_l, Forall_Forall2_diag.
    by apply Forall_forall. }
  cbn -[pad_sequence].
  rewrite pad_sequence_exact; [done|done|].
  intros ->. apply Forall2_nil_inv_r in HF. done.
Qed.

Lemma mask_row_lookup (t : list Z) (m j : nat) :
  padding_value ∉ t →
  mask_row (pad_row m t) !! j = Some 1 ↔ (j < length t)%nat.
Proof.
  intros Hpad. rewrite list_lookup_fmap.
  destruct (decide (j < length t)%nat) as [Hj|Hj].
  - rewrite lookup_app_l by done.
    destruct (lookup_lt_is_Some_2 t j Hj) as [v Hv]. rewrite Hv. cbn.
    rewrite bool_decide_eq_true_2; [done|].
    intros ->. apply Hpad. by eapply list_elem_of_lookup_2.
  - rewrite lookup_app_r by lia.
    split; [|lia]. intros Hl.
    destruct (replicate _ _ !! _) as [v|] eqn:Hv; [|done].
    apply lookup_replicate in Hv as [-> _]. cbn in Hl.
    by rewrite bool_decide_eq_false_2 in Hl by (by intros ?).
Qed.

Lemma mask_row_bit (row : list Z) (j : nat) (m : Z) :
  mask_row row !! j = Some m → m = 0 ∨ m = 1.
Proof.
  rewrite list_lookup_fmap. destruct (row !! j) as [v|]; [|done]. cbn.
  case_bool_decide; intros; simplify_eq; auto.
Qed.

Lemma select_by_mask_pad_row (t : list Z) (m : nat) :
  padding_value ∉ t →
  select_by_mask (pad_row m t) (mask_row (pad_row m t)) = t.
Proof.
  intros Hpad. unfold select_by_mask.
  generalize (m - length t)%nat as k. intros k.
  induction t as [|v t IH]; cbn -[filter].
  - induction k as [|k IHk]; [done|]. cbn -[filter].
    rewrite filter_cons_False; [done|]. cbn.
    rewrite bool_decide_eq_false_2 by (by intros ?). done.
  - rewrite filter_cons_True; cbn -[filter].
    + f_equal. apply IH. intros Hin. apply Hpad. by right.
    + rewrite bool_decide_eq_true_2; [done|]. intros ->. apply Hpad. left.
Qed.
End to_tensor_facts.

(** C7, as the code has it. For [N ≥ 1] sequences none of which contains
    the pad value (empty sequences included), and a pad value of at most
    [2^53] in absolute value, which [pad_sequence] stores as it is,
    [to_tensor] returns the sequences padded to the longest length and a
    mask of the same shape; [mask[i][j]] is 1 exactly when [j] is less than
    the length of sequence [i] and 0 otherwise, and the entries of row [i]
    at the positions where the mask is 1 are sequence [i]. *)
Theorem to_tensor_mask_roundtrip (samples : list (gmap string value))
    (key_value : string) (padding_value : Z) (device : Device)
    (seqs : list (list Z)) :
  samples ≠ [] →
  Forall2 (λ (s : gmap string value) t, s !! key_value = Some (VTensor t))
    samples seqs →
  Forall (λ t, padding_value ∉ t) seqs →
  - 2 ^ 53 ≤ padding_value ≤ 2 ^ 53 →
  ∃ input_ids attention_mask,
    to_tensor samples key_value padding_value device true
    = Ok (input_ids, Some attention_mask)
    ∧ length (data input_ids) = length seqs
    ∧ length (data attention_mask) = length seqs
    ∧ ∀ i t, seqs !! i = Some t →
        ∃ row mrow,
          data input_ids !! i = Some row
          ∧ data attention_mask !! i = Some mrow
          ∧ length row = max_list (length <$> seqs)
          ∧ length mrow = length row
          ∧ (∀ j, mrow !! j = Some 1 ↔ (j < length t)%nat)
          ∧ (∀ j m, mrow !! j = Some m → m = 0 ∨ m = 1)
          ∧ select_by_mask row mrow = t.
Proof.
  intros Hne HF Hpad Hn. eexists _, _. split; [by apply to_tensor_Ok|]. cbn.
  rewrite !length_fmap. split; [done|]. split; [done|].
  intros i t Hi. eexists _, _.
  rewrite !list_lookup_fmap, Hi. cbn. split; [done|]. split; [done|].
  assert (Hpt : padding_value ∉ t).
  { rewrite Forall_forall in Hpad. apply Hpad. by eapply list_elem_of_lookup_2. }
  assert (Hle : (length t ≤ max_list (length <$> seqs))%nat).
  { apply max_list_elem_of_le, list_elem_of_fmap. exists t. split; [done|].
    by eapply list_elem_of_lookup_2. }
  split; [rewrite length_app, length_replicate; lia|].
  split; [by rewrite length_fmap|].
  split; [intros j; by apply mask_row_lookup|].
  split; [intros j m; by apply mask_row_bit|].
  by apply select_by_mask_pad_row.
Qed.

Lemma to_tensor_mask_roundtrip_witness :
  ∃ input_ids attention_mask,
    to_tensor [ {[ "tokenized_ids"%string := VTensor [0; 7; 2] ]};
                {[ "tokenized_ids"%string := VTensor [0; 2] ]} ]
      "tokenized_ids" 1 cpu true
    = Ok (input_ids, Some attention_mask)
    ∧ length (data input_ids) = length [[0; 7; 2]; [0; 2]]
    ∧ length (data attention_mask) = length [[0; 7; 2]; [0; 2]]
    ∧ ∀ i t, [[0; 7; 2]; [0; 2]] !! i = Some t →
        ∃ row mrow,
          data input_ids !! i = Some row
          ∧ data attention_mask !! i = Some mrow
          ∧ length row = max_list (length <$> [[0; 7; 2]; [0; 2]])
          ∧ length mrow = length row
          ∧ (∀ j, mrow !! j = Some 1 ↔ (j < length t)%nat)
          ∧ (∀ j m, mrow !! j = Some m → m = 0 ∨ m = 1)
          ∧ select_by_mask row mrow = t.
Proof.
  apply (to_tensor_mask_roundtrip _ "tokenized_ids" 1 cpu [[0; 7; 2]; [0; 2]]).
  - done.
  - repeat constructor.
  - repeat constructor; intros Hin; repeat (apply elem_of_cons in Hin as [?|Hin]; [done|]);
      by apply elem_of_nil in Hin.
  - lia.
Defined.

(** C7, counterexample. One sequence [[0; 1; 2]] and pad value 1: the mask
    is 0 at position 1, which is inside the sequence, and the masked
    positions give back [[0; 2]]. *)
Lemma to_tensor_mask_pad_in_data :
  ∃ input_ids attention_mask row mrow,
    to_tensor [ {[ "tokenized_ids"%string := VTensor [0; 1; 2] ]} ]
      "tokenized_ids" 1 cpu true
    = Ok (input_ids, Some attention_mask)
    ∧ data input_ids !! 0%nat = Some row
    ∧ data attention_mask !! 0%nat = Some mrow
    ∧ ¬ (mrow !! 1%nat = Some 1 ↔ (1 < length [0; 1; 2])%nat)
    ∧ select_by_mask row mrow ≠ [0; 1; 2].
Proof.
  eexists _, _, _, _. split; [reflexivity|]. cbn.
  split; [reflexivity|]. split; [reflexivity|]. split.
  - intros [_ H]. specialize (H ltac:(lia)). done.
  - done.
Qed.

(** Why C7 bounds the pad value. [pad_sequence] takes the pad value as a
    float: [2^53 + 1] is stored as [2^53], which [torch.ne] tells from the
    pad value, so the mask is 1 on the padding of the shorter sequence too;
    and a pad value beyond int64, such as [2^70], cannot be stored at
    all. *)
Lemma to_tensor_mask_rounded_pad :
  to_tensor [ {[ "tokenized_ids"%string := VTensor [5; 6; 7] ]};
              {[ "tokenized_ids"%string := VTensor [5] ]} ]
    "tokenized_ids" (2 ^ 53 + 1) cpu true
  = Ok ({| data := [[5; 6; 7]; [5; 2 ^ 53; 2 ^ 53]]; tdevice := cpu |},
        Some {| data := [[1; 1; 1]; [1; 1; 1]]; tdevice := cpu |})
  ∧ to_tensor [ {[ "tokenized_ids"%string := VTensor [5; 6; 7] ]};
                {[ "tokenized_ids"%string := VTensor [5] ]} ]
      "tokenized_ids" (2 ^ 70) cpu true
    = Raise RuntimeError.
Proof. split; vm_compute; reflexivity. Qed.

(** ** Construction and iteration: claims *)

Lemma Forall2_Permutation_l {A B} (R : A → B → Prop) (l l' : list A) (k : list B) :
  l ≡ₚ l' → Forall2 R l k → ∃ k', k' ≡ₚ k ∧ Forall2 R l' k'.
Proof.
  intros Hp. revert k. induction Hp as [|x l l' _ IH|x y l|l l' l'' _ IH1 _ IH2];
    intros k HF.
  - apply Forall2_nil_inv_l in HF as ->. by exists [].
  - apply Forall2_cons_inv_l in HF as (b & k0 & Hb & HF & ->).
    destruct (IH _ HF) as (k' & Hk' & HF'). exists (b :: k').
    split; [by constructor|by constructor].
  - apply Forall2_cons_inv_l in HF as (b & k0 & Hb & HF & ->).
    apply Forall2_cons_inv_l in HF as (c & k1 & Hc & HF & ->).
    exists (c :: b :: k1). split; [apply Permutation_swap|by repeat constructor].
  - destruct (IH1 _ HF) as (k' & Hk' & HF').
    destruct (IH2 _ HF') as (k'' & Hk'' & HF'').
    exists k''. split; [by etrans|done].
Qed.

(** What [__iter__] hands to the generator expression: the groups of the
    sampler, as a list permuted by the shuffle, each with its ids replaced
    by their samples in the same order. *)
Lemma iter_spec (h : store) (r : nat) (self : Loader) (g g2 : Random.state)
    (it : Iterator) :
  h !! r = Some self →
  iter h r g = Ok (it, g2) →
  ∃ groups g1 groups',
    sampler self g = Ok (groups, g1)
    ∧ groups' ≡ₚ groups
    ∧ (shuffle self = false → groups' = groups)
    ∧ self_ref it = r
    ∧ Forall2 (Forall2 (λ s idx, AMRDataset.getitem (dataset self) idx = Ok s))
        (pending it) groups'.
Proof.
  intros Hr Hit. unfold iter in Hit. rewrite Hr in Hit. cbn in Hit.
  destruct (sampler self g) as [[groups g1]|] eqn:Hs; [|done]. cbn in Hit.
  destruct (mapM _ groups) as [samples|] eqn:Hm; [|done]. cbn in Hit.
  assert (HF : Forall2 (Forall2 (λ s idx, AMRDataset.getitem (dataset self) idx = Ok s))
                 samples groups).
  { apply mapM_Ok_Forall2 in Hm. apply Forall2_flip.
    eapply Forall2_impl; [exact Hm|]. cbn. intros grp b Hb.
    apply mapM_Ok_Forall2 in Hb. by apply Forall2_flip. }
  exists groups, g1.
  destruct (shuffle self) eqn:Hsh.
  - destruct (Random.shuffle samples g1) as [shuffled g3] eqn:Hshuf.
    unfold mret, result_ret in Hit. simplify_eq. cbn.
    assert (Hp : samples ≡ₚ shuffled).
    { symmetry. change shuffled with (shuffled, g2).1. rewrite <-Hshuf.
      apply shuffle_Permutation. }
    destruct (Forall2_Permutation_l _ _ _ _ Hp HF) as (groups' & Hg' & HF').
    exists groups'. by repeat split.
  - unfold mret, result_ret in Hit. simplify_eq. cbn.
    exists groups. by repeat split.
Qed.

(** A step of the generator expression collates the first pending group,
    as it is, with the dataset and the device the loader has now. *)
Lemma next_spec (h : store) (it it' : Iterator) (batch : Batch.t) :
  next h it = Yield batch it' →
  ∃ self b,
    h !! self_ref it = Some self
    ∧ pending it = b :: pending it'
    ∧ self_ref it' = self_ref it
    ∧ AMRDataset.collate_fn (dataset self) b (device self) = Ok batch.
Proof.
  unfold next. intros Hn.
  destruct (pending it) as [|b rest]; [done|].
  destruct (h !! self_ref it) as [self|]; [|done].
  destruct (AMRDataset.collate_fn _ _ _) as [batch'|] eqn:Hc; [|done].
  simplify_eq. by exists self, b.
Qed.

Tactic Notation "inv_bind" hyp(H) "as" simple_intropattern(p) "eqn" ident(E) :=
  match type of H with
  | mbind _ ?m = Ok _ => destruct m as [p|] eqn:E; [cbn in H|done]
  end.

(** Whenever [to_tensor] returns: the samples are not empty and all hold a
    tensor in the field; the rows are these tensors, each continued by one
    and the same fill value up to the longest length; the mask, if asked
    for, compares the rows with the padding value. *)
Lemma to_tensor_shape (samples : list (gmap string value)) (key_value : string)
    (padding_value : Z) (device : Device) (return_mask : bool) t om :
  to_tensor samples key_value padding_value device return_mask = Ok (t, om) →
  samples ≠ []
  ∧ ∃ (seqs : list (list Z)) (fill : Z),
      Forall2 (λ (s : gmap string value) t, s !! key_value = Some (VTensor t))
        samples seqs
      ∧ t = {| data := (λ s : list Z,
                          s ++ replicate (max_list (length <$> seqs) - length s)%nat
                                 fill) <$> seqs;
               tdevice := device |}
      ∧ om = if return_mask
             then Some {| data := ne (data t) padding_value; tdevice := device |}
             else None.
Proof.
  unfold to_tensor. intros H.
  inv_bind H as vals eqn Hv.
  inv_bind H as seqs eqn Hs.
  inv_bind H as rows eqn Hp.
  apply mapM_Ok_Forall2 in Hv, Hs.
  apply pad_sequence_inv in Hp as (Hne & fill & ->).
  split.
  { intros ->. apply Forall2_nil_inv_l in Hv as ->.
    by apply Forall2_nil_inv_l in Hs as ->. }
  exists seqs, fill. split.
  { clear H Hne. revert seqs Hs.
    induction Hv as [|s v samples vals Hsv _ IH]; intros seqs Hs.
    - apply Forall2_nil_inv_l in Hs as ->. constructor.
    - apply Forall2_cons_inv_l in Hs as (t0 & seqs' & Ht0 & Hs & ->).
      constructor; [|by apply IH].
      unfold getkey in Hsv. destruct (s !! key_value) as [w|]; [|done].
      destruct v; simplify_eq; cbn in Ht0; by simplify_eq. }
  unfold mret, result_ret in H. destruct return_mask; cbn in H; by simplify_eq.
Qed.

Lemma to_tensor_device samples key_value padding_value d return_mask t om :
  to_tensor samples key_value padding_value d return_mask = Ok (t, om) →
  tdevice t = d ∧ ∀ m, om = Some m → tdevice m = d.
Proof.
  intros H. apply to_tensor_shape in H as (_ & seqs & fill & _ & -> & ->).
  split; [done|]. destruct return_mask; [|done]. by intros m [= <-].
Qed.

Lemma to_tensor_mask_device samples key_value padding_value d t m :
  to_tensor_mask samples key_value padding_value d = Ok (t, m) →
  tdevice t = d ∧ tdevice m = d.
Proof.
  unfold to_tensor_mask. intros H.
  destruct (to_tensor _ _ _ _ _) as [[t' [m'|]]|] eqn:Ht; [|done..].
  cbn in H. unfold mret, result_ret in H. simplify_eq.
  apply to_tensor_device in Ht as [? Hm]. split; [done|]. by apply Hm.
Qed.

Lemma collate_fn_device (ds : AMRDataset.t) samples d batch :
  AMRDataset.collate_fn ds samples d = Ok batch → batch_on d batch.
Proof.
  unfold AMRDataset.collate_fn. intros H.
  inv_bind H as [t1 m1] eqn E1.
  inv_bind H as sents eqn Es.
  inv_bind H as s0 eqn E0.
  inv_bind H as [[gs lgs] y] eqn Ey.
  inv_bind H as ids eqn Ei.
  inv_bind H as [t2 m2] eqn E2.
  inv_bind H as [t3 m3] eqn E3.
  unfold mret, result_ret in H. simplify_eq.
  apply to_tensor_mask_device in E1 as [??], E2 as [??], E3 as [??].
  assert (Hy : ∀ y', y = Some y' →
            tdevice (Batch.decoder_input_ids y') = d ∧ tdevice (Batch.labels y') = d).
  { intros y' ->. case_bool_decide; cbn in Ey.
    - inv_bind Ey as gs' eqn Eg.
      inv_bind Ey as lgs' eqn El.
      inv_bind Ey as [b ?] eqn Eb.
      unfold mret, result_ret in Ey. simplify_eq. cbn.
      by apply to_tensor_device in Eb as [? _].
    - unfold mret, result_ret in Ey. simplify_eq. }
  cbn. split_and!; done.
Qed.

(** C6, counterexample. Construction with a budget of 0 succeeds, and the
    loader it returns is usable: its sampler yields three groups. *)
Lemma init_accepts_zero_budget :
  ∃ self,
    init ds_5_3_9 0 cpu false true = Ok self
    ∧ batch_size self = 0
    ∧ sampler self tape0 = Ok ([[0]; [2]; [1]]%nat, tape0).
Proof. eexists. split; [reflexivity|]. split; reflexivity. Qed.

(** C6, as the code has it. [__init__] checks nothing: for every budget,
    zero and negative ones included, construction succeeds and stores the
    budget as given. On a loader with such a budget the sampler still
    returns groups that partition the indices; with a negative budget every
    group holds one index. *)
Theorem init_stores_any_budget (ds : AMRDataset.t) (b : Z) (dev : Device)
    (sh so : bool) :
  b ≤ 0 →
  ∃ self,
    init ds b dev sh so = Ok self
    ∧ batch_size self = b ∧ dataset self = ds ∧ device self = dev
    ∧ shuffle self = sh ∧ sort self = so
    ∧ (AMRDataset.wf ds → ∀ g,
         ∃ groups g',
           sampler self g = Ok (groups, g')
           ∧ concat groups ≡ₚ seq 0 (AMRDataset.len ds)
           ∧ (b < 0 → Forall (λ grp, length grp = 1%nat) groups)).
Proof.
  intros _. eexists. split; [reflexivity|]. cbn. repeat (split; [done|]).
  intros Hwf g.
  set (self := {| batch_size := b; tokenizer := AMRDataset.tokenizer ds;
                  dataset := ds; device := dev; shuffle := sh; sort := so |}).
  destruct (sampler_spec self g Hwf) as (ids & g' & groups & _ & Hperm & Hs & Hcat & Hok).
  exists groups, g'. split; [done|]. split.
  { by rewrite Hcat, reverse_Permutation. }
  intros Hneg. eapply Forall_impl; [exact Hok|]. cbn.
  intros grp [Hne [Hfit|(i & -> & _)]]; [|done].
  exfalso. unfold group_cost in Hfit.
  pose proof (group_longest_nonneg self grp). cbn in *. nia.
Qed.

Lemma init_stores_any_budget_witness :
  ∃ self,
    init ds_5_3_9 (-5) cpu false true = Ok self
    ∧ batch_size self = -5 ∧ dataset self = ds_5_3_9 ∧ device self = cpu
    ∧ shuffle self = false ∧ sort self = true
    ∧ (AMRDataset.wf ds_5_3_9 → ∀ g,
         ∃ groups g',
           sampler self g = Ok (groups, g')
           ∧ concat groups ≡ₚ seq 0 (AMRDataset.len ds_5_3_9)
           ∧ (-5 < 0 → Forall (λ grp, length grp = 1%nat) groups)).
Proof.
  apply (init_stores_any_budget ds_5_3_9 (-5) cpu false true). discriminate.
Defined.

(** C8, counterexample. The loader is on [cpu] when [__iter__] is called;
    [device] is assigned before the first batch is requested, and that
    batch, of the iterator already in flight, comes out on the new device. *)
Lemma device_change_reaches_inflight_iterator :
  toy_store !! 0%nat = Some (toy_loader ds_5_3_9 20 true true)
  ∧ device (toy_loader ds_5_3_9 20 true true) = cpu
  ∧ iter toy_store 0 tape0 = Ok toy_iterator
  ∧ ∃ batch it',
      next (assign_device 0 (cuda 0) toy_store) toy_iterator.1 = Yield batch it'
      ∧ batch_on (cuda 0) batch
      ∧ ¬ batch_on cpu batch.
Proof.
  split; [reflexivity|]. split; [reflexivity|].
  split; [vm_compute; reflexivity|].
  destruct (next (assign_device 0 (cuda 0) toy_store) toy_iterator.1)
    as [|batch it'|e] eqn:Hn.
  - vm_compute in Hn. discriminate.
  - exists batch, it'. split; [done|].
    apply next_spec in Hn as (self' & b & Hself' & _ & _ & Hc).
    assert (self' = set_device (cuda 0) (toy_loader ds_5_3_9 20 true true)) as ->.
    { vm_compute in Hself'. by injection Hself' as <-. }
    apply collate_fn_device in Hc. split; [done|].
    destruct batch as [[x y] extra]. cbn in *.
    intros [Hcpu _]. destruct Hc as [Hcuda _]. congruence.
  - vm_compute in Hn. discriminate.
Qed.

(** C8, as the code has it. An iterator already obtained does not read
    [batch_size]: assigning it changes none of its batches, and the next
    call of [__iter__] groups with the new budget. [device] is read when a
    batch is collated: after an assignment every batch the iterator
    produces is on the new device. *)
Theorem reassignment_effect (h : store) (r : nat) (self : Loader) (it : Iterator) :
  h !! r = Some self →
  self_ref it = r →
  (∀ b, next (assign_batch_size r b h) it = next h it)
  ∧ (∀ b g it2 g2,
       iter (assign_batch_size r b h) r g = Ok (it2, g2) →
       ∃ groups g1 groups',
         sampler (set_batch_size b self) g = Ok (groups, g1)
         ∧ groups' ≡ₚ groups
         ∧ Forall2 (Forall2 (λ s idx, AMRDataset.getitem (dataset self) idx = Ok s))
             (pending it2) groups')
  ∧ (∀ d batch it', next (assign_device r d h) it = Yield batch it' →
       batch_on d batch).
Proof.
  intros Hr Hit. split_and!.
  - intros b. unfold next, assign_batch_size. rewrite Hit, lookup_alter_eq, Hr.
    done.
  - intros b g it2 g2 Hiter.
    assert (Hr' : assign_batch_size r b h !! r = Some (set_batch_size b self)).
    { unfold assign_batch_size. by rewrite lookup_alter_eq, Hr. }
    destruct (iter_spec _ _ _ _ _ _ Hr' Hiter)
      as (groups & g1 & groups' & Hs & Hp & _ & _ & HF).
    by exists groups, g1, groups'.
  - intros d batch it' Hn.
    apply next_spec in Hn as (self' & b & Hself' & _ & _ & Hc).
    unfold assign_device in Hself'. rewrite Hit, lookup_alter_eq, Hr in Hself'.
    cbn in Hself'. simplify_eq. by apply collate_fn_device in Hc.
Qed.

Lemma reassignment_effect_witness :
  (∀ b, next (assign_batch_size 0 b toy_store) toy_iterator.1
        = next toy_store toy_iterator.1)
  ∧ (∀ b g it2 g2,
       iter (assign_batch_size 0 b toy_store) 0 g = Ok (it2, g2) →
       ∃ groups g1 groups',
         sampler (set_batch_size b (toy_loader ds_5_3_9 20 true true)) g
         = Ok (groups, g1)
         ∧ groups' ≡ₚ groups
         ∧ Forall2 (Forall2 (λ s idx,
                      AMRDataset.getitem
                        (dataset (toy_loader ds_5_3_9 20 true true)) idx = Ok s))
             (pending it2) groups')
  ∧ (∀ d batch it', next (assign_device 0 d toy_store) toy_iterator.1
                    = Yield batch it' →
       batch_on d batch).
Proof.
  apply (reassignment_effect toy_store 0 (toy_loader ds_5_3_9 20 true true)
           toy_iterator.1).
  - reflexivity.
  - vm_compute. reflexivity.
Defined.

(** C9. The groups that [__iter__] passes on to collation are the groups of
    the sampler, in a permuted order when shuffle is enabled and in the same
    order when it is not; each of them holds the samples of its ids in the
    order the sampler gave them, and a step of the iterator collates the
    first pending group as it is. *)
Theorem iter_keeps_groups (h : store) (r : nat) (self : Loader)
    (g g2 : Random.state) (it : Iterator) :
  h !! r = Some self →
  iter h r g = Ok (it, g2) →
  (∃ groups g1 groups',
     sampler self g = Ok (groups, g1)
     ∧ groups' ≡ₚ groups
     ∧ (shuffle self = false → groups' = groups)
     ∧ Forall2 (Forall2 (λ s idx, AMRDataset.getitem (dataset self) idx = Ok s))
         (pending it) groups')
  ∧ (∀ h' it0 batch it', next h' it0 = Yield batch it' →
       ∃ self' b,
         h' !! self_ref it0 = Some self'
         ∧ pending it0 = b :: pending it'
         ∧ AMRDataset.collate_fn (dataset self') b (device self') = Ok batch).
Proof.
  intros Hr Hiter. split.
  - destruct (iter_spec _ _ _ _ _ _ Hr Hiter)
      as (groups & g1 & groups' & Hs & Hp & Hno & _ & HF).
    by exists groups, g1, groups'.
  - intros h' it0 batch it' Hn.
    apply next_spec in Hn as (self' & b & ? & ? & _ & ?). by exists self', b.
Qed.

Lemma iter_keeps_groups_witness :
  (∃ groups g1 groups',
     sampler (toy_loader ds_5_3_9 20 true true) tape0 = Ok (groups, g1)
     ∧ groups' ≡ₚ groups
     ∧ (shuffle (toy_loader ds_5_3_9 20 true true) = false → groups' = groups)
     ∧ Forall2 (Forall2 (λ s idx,
                  AMRDataset.getitem
                    (dataset (toy_loader ds_5_3_9 20 true true)) idx = Ok s))
         (pending toy_iterator.1) groups')
  ∧ (∀ h' it0 batch it', next h' it0 = Yield batch it' →
       ∃ self' b,
         h' !! self_ref it0 = Some self'
         ∧ pending it0 = b :: pending it'
         ∧ AMRDataset.collate_fn (dataset self') b (device self') = Ok batch).
Proof.
  apply (iter_keeps_groups toy_store 0 (toy_loader ds_5_3_9 20 true true)
           tape0 toy_iterator.2 toy_iterator.1).
  - reflexivity.
  - vm_compute. reflexivity.
Defined.

(** * Further properties of the code *)

(** ** The sampler: order, greediness, special datasets *)

(** The three ways an iteration of the loop can end. *)
Lemma sampler_step_cases (self : Loader) (idx : nat) (st : batch_state) :
  (idx < length (AMRDataset.linearized (dataset self)))%nat →
  batch_inv self st →
  ∃ out st',
    sampler_step self idx st = Ok (out, st')
    ∧ batch_inv self st'
    ∧ ((out = [] ∧ batch_ids st' = batch_ids st ++ [idx])
       ∨ (batch_ids st ≠ [] ∧ out = [batch_ids st] ∧ batch_ids st' = [idx]
          ∧ group_cost (dataset self) (batch_ids st ++ [idx]) > batch_size self)
       ∨ (out = (if truthy (batch_ids st) then [batch_ids st] else []) ++ [[idx]]
          ∧ batch_ids st' = []
          ∧ bucketing_length (dataset self) idx > batch_size self)).
Proof.
  intros Hidx Hinv.
  destruct (sampler_step_spec self idx st Hidx Hinv)
    as (out & st' & Hstep & Hinv' & _ & _).
  exists out, st'. split; [done|]. split; [done|].
  destruct (decide (bucketing_length (dataset self) idx > batch_size self))
    as [Hover|Hfit].
  { right; right. rewrite sampler_step_oversized in Hstep by done.
    by simplify_eq. }
  clear Hinv'. destruct Hinv as [Hn Hlg Hb].
  destruct (index_lt _ _ Hidx) as (l & Hl & Hil).
  assert (Hsize : Z.of_nat (length l) = bucketing_length (dataset self) idx).
  { unfold bucketing_length. by rewrite Hl. }
  pose proof (group_longest_nonneg self (batch_ids st)) as Hnn.
  unfold sampler_step in Hstep. rewrite Hil in Hstep.
  cbn -[Z.mul Z.max Z.add] in Hstep. rewrite Hsize in Hstep.
  destruct st as [lg n nt ids]. cbn -[Z.mul Z.max Z.add] in *. subst lg n.
  destruct ids as [|i0 ids'].
  - rewrite andb_false_r in Hstep. cbn -[Z.mul Z.max Z.add] in Hstep.
    rewrite (bool_decide_eq_true_2 (1%nat = 1%nat)) in Hstep by done.
    rewrite bool_decide_eq_false_2 in Hstep by lia.
    cbn in Hstep. unfold mret, result_ret in Hstep. simplify_eq. by left.
  - rewrite andb_true_r in Hstep.
    pose proof (group_longest_snoc self (i0 :: ids') idx) as Hsnoc.
    case_bool_decide as Hcand; cbn -[Z.mul Z.max Z.add] in Hstep.
    + rewrite (bool_decide_eq_true_2 (1%nat = 1%nat)) in Hstep by done.
      rewrite bool_decide_eq_false_2 in Hstep by lia.
      cbn in Hstep. unfold mret, result_ret in Hstep. simplify_eq.
      right; left. split; [done|]. split; [done|]. split; [done|].
      unfold group_cost. rewrite Hsnoc, length_app.
      unfold group_longest. cbn -[Z.mul Z.max Z.add] in *.
      rewrite Z.max_comm in Hcand. lia.
    + rewrite bool_decide_eq_false_2 in Hstep by (rewrite length_app; cbn; lia).
      cbn in Hstep. unfold mret, result_ret in Hstep. simplify_eq. by left.
Qed.

Lemma group_cost_oversized (self : Loader) (grp : list nat) (idx : nat) :
  idx ∈ grp →
  bucketing_length (dataset self) idx > batch_size self →
  group_cost (dataset self) grp > batch_size self.
Proof.
  intros Hin Hover. pose proof (group_longest_ge self _ _ Hin) as Hge.
  unfold group_cost.
  assert (1 ≤ Z.of_nat (length grp)).
  { destruct grp; [by apply elem_of_nil in Hin|cbn; lia]. }
  pose proof (group_longest_nonneg self grp). nia.
Qed.

Lemma sampler_loop_greedy (self : Loader) (stack : list nat) (st : batch_state) :
  Forall (λ idx, (idx < length (AMRDataset.linearized (dataset self)))%nat) stack →
  batch_inv self st →
  ∃ groups,
    sampler_loop self stack st = Ok groups
    ∧ greedy_chain self groups
    ∧ (batch_ids st ≠ [] →
       ∃ g rest, groups = g :: rest ∧ batch_ids st `prefix_of` g).
Proof.
  intros Hstack. revert st.
  induction Hstack as [|idx stack Hidx _ IH]; intros st Hinv.
  - destruct st as [lg n nt ids]. cbn. destruct ids as [|i0 ids']; cbn.
    + by exists [].
    + exists [i0 :: ids']. split; [done|]. split; [done|]. intros _.
      by exists (i0 :: ids'), [].
  - destruct (sampler_step_cases self idx st Hidx Hinv)
      as (out & st' & Hstep & Hinv' & Hcases).
    destruct (IH st' Hinv') as (rest & Hrest & Hgreedy & Hprefix).
    exists (out ++ rest). cbn. rewrite Hstep. cbn. rewrite Hrest. cbn.
    split; [done|].
    destruct Hcases as [(-> & Hids')|[(Hne & -> & Hids' & Hcost)|(-> & Hids' & Hover)]].
    + cbn. split; [done|]. intros Hne.
      destruct Hprefix as (g & rest' & -> & Hpre).
      { rewrite Hids'. by destruct (batch_ids st). }
      exists g, rest'. split; [done|]. etrans; [|exact Hpre].
      rewrite Hids'. by apply prefix_app_r.
    + destruct Hprefix as (g & rest' & -> & Hpre); [by rewrite Hids'|].
      rewrite Hids' in Hpre. cbn. split.
      * split; [|done]. intros i Hi. destruct Hpre as [k ->].
        cbn in Hi. by simplify_eq.
      * intros _. by exists (batch_ids st), (g :: rest').
    + assert (Hsingle : greedy_chain self ([idx] :: rest)).
      { destruct rest as [|b rest']; [done|]. cbn. split; [|done].
        intros i _. apply (group_cost_oversized self _ idx); [|done].
        apply list_elem_of_here. }
      destruct (batch_ids st) as [|i0 ids0] eqn:Hids; cbn.
      * split; [done|]. done.
      * split.
        -- split; [|done]. intros i Hi. cbn in Hi. simplify_eq.
           apply (group_cost_oversized self _ i); [|done].
           set_solver.
        -- intros _. by eexists _, _.
Qed.

Lemma greedy_chain_lookup (self : Loader) (groups : list (list nat)) k a b i :
  greedy_chain self groups →
  groups !! k = Some a → groups !! S k = Some b → head b = Some i →
  group_cost (dataset self) (a ++ [i]) > batch_size self.
Proof.
  revert k. induction groups as [|g0 groups IH]; intros k Hg Ha Hb Hi; [done|].
  destruct groups as [|g1 groups]; [done|]. destruct Hg as [Hhead Hrest].
  destruct k as [|k]; cbn in Ha, Hb.
  - simplify_eq. by apply Hhead.
  - by eapply IH.
Qed.

Lemma sampler_greedy_chain (self : Loader) (g g' : Random.state)
    (groups : list (list nat)) :
  AMRDataset.wf (dataset self) →
  sampler self g = Ok (groups, g') →
  greedy_chain self groups.
Proof.
  intros Hwf Hs.
  destruct (sampler_ids_Permutation self g Hwf) as (ids & g1 & Hids & Hperm).
  destruct (sampler_loop_greedy self (reverse ids) batch_init)
    as (groups1 & Hl & Hgreedy & _).
  { apply Forall_forall. intros x Hx.
    rewrite reverse_Permutation, Hperm in Hx. apply elem_of_seq in Hx.
    rewrite (AMRDataset.wf_linearized _ Hwf). lia. }
  { apply batch_inv_init. }
  unfold sampler, sampler_while in Hs. rewrite Hids in Hs. cbn in Hs.
  rewrite Hl in Hs. cbn in Hs. unfold mret, result_ret in Hs. by simplify_eq.
Qed.

(** X1. The sampler cuts the id list, read from its end, into consecutive
    runs: the groups put end to end are the reversed id list. With shuffle
    and sort disabled this is [n-1, ..., 1, 0]. *)
Theorem sampler_keeps_pop_order (self : Loader) (g : Random.state) :
  AMRDataset.wf (dataset self) →
  ∃ ids g' groups,
    sampler_ids self g = Ok (ids, g')
    ∧ sampler self g = Ok (groups, g')
    ∧ concat groups = reverse ids
    ∧ (shuffle self = false → sort self = false →
       concat groups = reverse (seq 0 (AMRDataset.len (dataset self)))).
Proof.
  intros Hwf.
  destruct (sampler_spec self g Hwf) as (ids & g' & groups & Hids & _ & Hs & Hcat & _).
  exists ids, g', groups. split; [done|]. split; [done|]. split; [done|].
  intros Hsh Hso. rewrite Hcat. f_equal.
  unfold sampler_ids in Hids. rewrite Hsh, Hso in Hids. cbn in Hids.
  unfold mret, result_ret in Hids. by simplify_eq.
Qed.

Lemma sampler_keeps_pop_order_witness :
  ∃ ids g' groups,
    sampler_ids (toy_loader ds_5_3_9 20 false false) tape0 = Ok (ids, g')
    ∧ sampler (toy_loader ds_5_3_9 20 false false) tape0 = Ok (groups, g')
    ∧ concat groups = reverse ids
    ∧ (shuffle (toy_loader ds_5_3_9 20 false false) = false →
       sort (toy_loader ds_5_3_9 20 false false) = false →
       concat groups = reverse (seq 0 (AMRDataset.len ds_5_3_9))).
Proof.
  apply (sampler_keeps_pop_order (toy_loader ds_5_3_9 20 false false) tape0).
  by split.
Defined.

(** X2. The grouping is greedy: a group is closed only when the next
    example does not fit. For two consecutive groups, the earlier one extended
    by the first example of the later one costs more than the budget. *)
Theorem sampler_greedy (self : Loader) (g g' : Random.state)
    (groups : list (list nat)) (k : nat) (a b : list nat) (i : nat) :
  AMRDataset.wf (dataset self) →
  sampler self g = Ok (groups, g') →
  groups !! k = Some a →
  groups !! S k = Some b →
  head b = Some i →
  group_longest (dataset self) (a ++ [i]) * Z.of_nat (length (a ++ [i]))
  > batch_size self.
Proof.
  intros Hwf Hs Ha Hb Hi.
  by eapply (greedy_chain_lookup self groups k a b i);
    [eapply sampler_greedy_chain|..].
Qed.

Lemma sampler_greedy_witness :
  group_longest ds_5_3_9 ([2; 1] ++ [0])%nat
  * Z.of_nat (length ([2; 1] ++ [0])%nat) > 20.
Proof.
  apply (sampler_greedy (toy_loader ds_5_3_9 20 false false) tape0 tape0
           [[2; 1]; [0]]%nat 0 [2; 1]%nat [0]%nat 0%nat);
    try reflexivity.
  by split.
Defined.

Lemma group_longest_uniform (self : Loader) (grp : list nat) (s : Z) :
  (∀ i, i ∈ grp → bucketing_length (dataset self) i = s) →
  grp ≠ [] → 0 ≤ s →
  group_longest (dataset self) grp = s.
Proof.
  intros Hs Hne Hs0. unfold group_longest.
  induction grp as [|i grp IH]; [done|]. cbn.
  rewrite (Hs i) by left.
  destruct grp as [|j grp]; [cbn; lia|].
  rewrite IH; [lia| |done]. intros i' Hi'. apply Hs. by right.
Qed.

(** X3. When all examples have the same bucketing length [s], with
    [0 < s ≤ batch_size], every group except the last holds exactly
    [batch_size // s] examples, and the last one holds between 1 and
    [batch_size // s]. *)
Theorem sampler_uniform_lengths (self : Loader) (g g' : Random.state)
    (groups : list (list nat)) (s : Z) :
  AMRDataset.wf (dataset self) →
  (∀ idx, (idx < AMRDataset.len (dataset self))%nat →
          bucketing_length (dataset self) idx = s) →
  0 < s ≤ batch_size self →
  sampler self g = Ok (groups, g') →
  ∀ k grp, groups !! k = Some grp →
    (1 ≤ length grp)%nat
    ∧ Z.of_nat (length grp) ≤ batch_size self `div` s
    ∧ ((S k < length groups)%nat →
       Z.of_nat (length grp) = batch_size self `div` s).
Proof.
  intros Hwf Hs [Hs0 HsB] Hsam k grp Hk.
  destruct (sampler_spec self g Hwf)
    as (ids & g1 & groups1 & _ & Hperm & Hsam1 & Hcat & Hok).
  rewrite Hsam in Hsam1. simplify_eq.
  assert (Hrange : ∀ grp' i, grp' ∈ groups1 → i ∈ grp' →
                     bucketing_length (dataset self) i = s).
  { intros grp' i Hg Hi. apply Hs.
    assert (i ∈ concat groups1) as Hin.
    { apply list_elem_of_In, in_concat. exists grp'.
      by split; apply list_elem_of_In. }
    rewrite Hcat, reverse_Permutation, Hperm in Hin.
    apply elem_of_seq in Hin. lia. }
  rewrite Forall_forall in Hok.
  assert (Hin : grp ∈ groups1) by (by eapply list_elem_of_lookup_2).
  destruct (Hok grp Hin) as [Hne Hfit].
  assert (Hlong : group_longest (dataset self) grp = s).
  { apply group_longest_uniform; [|done|lia]. intros i Hi. by apply (Hrange grp). }
  assert (Hcost : s * Z.of_nat (length grp) ≤ batch_size self).
  { destruct Hfit as [Hfit|(i & -> & Hover)].
    - unfold group_cost in Hfit. by rewrite Hlong in Hfit.
    - rewrite (Hrange [i] i Hin) in Hover by left. lia. }
  split; [destruct grp; [done|cbn; lia]|].
  split; [apply Z.div_le_lower_bound; lia|].
  intros Hnext.
  destruct (lookup_lt_is_Some_2 groups1 (S k) Hnext) as [b Hb].
  assert (Hbin : b ∈ groups1) by (by eapply list_elem_of_lookup_2).
  destruct (Hok b Hbin) as [Hbne _].
  destruct b as [|i b']; [done|].
  pose proof (sampler_greedy_chain self g _ groups1 Hwf Hsam) as Hgreedy.
  pose proof (greedy_chain_lookup self groups1 k grp (i :: b') i Hgreedy Hk Hb eq_refl)
    as Hgt.
  unfold group_cost in Hgt.
  rewrite (group_longest_uniform self (grp ++ [i]) s) in Hgt; [| |by destruct grp|lia].
  - rewrite length_app in Hgt. cbn in Hgt.
    pose proof (Z.mul_div_le (batch_size self) s Hs0).
    assert (Z.of_nat (length grp) ≤ batch_size self `div` s)
      by (apply Z.div_le_lower_bound; lia).
    pose proof (Z.mod_pos_bound (batch_size self) s Hs0).
    pose proof (Z.div_mod (batch_size self) s ltac:(lia)). nia.
  - intros j Hj. apply elem_of_app in Hj as [Hj|Hj].
    + by apply (Hrange grp).
    + apply list_elem_of_singleton in Hj as ->. apply (Hrange (i :: b')); [done|left].
Qed.

Lemma sampler_uniform_lengths_witness :
  (1 ≤ length [4; 3]%nat)%nat
  ∧ Z.of_nat (length [4; 3]%nat) ≤ 7 `div` 3
  ∧ ((1 < length [[4; 3]; [2; 1]; [0]]%nat)%nat →
     Z.of_nat (length [4; 3]%nat) = 7 `div` 3).
Proof.
  apply (sampler_uniform_lengths (toy_loader ds_uniform_3 7 false false)
           tape0 tape0 [[4; 3]; [2; 1]; [0]]%nat 3 ltac:(by split)
           ltac:(intros idx Hidx; cbn in Hidx;
                 do 5 (destruct idx as [|idx]; [reflexivity|]); lia)
           ltac:(cbn; lia) eq_refl 0%nat [4; 3]%nat eq_refl).
Defined.

Lemma singletons_concat {A} (groups : list (list A)) :
  Forall (λ grp, ∃ i, grp = [i]) groups → groups = (λ i, [i]) <$> concat groups.
Proof.
  induction 1 as [|grp groups (i & ->) _ IH]; [done|]. cbn. by rewrite <-IH.
Qed.

(** X4. When every example is longer than the budget (in particular when
    the budget is negative), the sampler yields one singleton group per
    example, in the order in which the ids are popped. *)
Theorem sampler_all_oversized (self : Loader) (g : Random.state) :
  AMRDataset.wf (dataset self) →
  (∀ idx, (idx < AMRDataset.len (dataset self))%nat →
          bucketing_length (dataset self) idx > batch_size self) →
  ∃ ids g',
    sampler_ids self g = Ok (ids, g')
    ∧ sampler self g = Ok ((λ i, [i]) <$> reverse ids, g').
Proof.
  intros Hwf Hover.
  destruct (sampler_spec self g Hwf)
    as (ids & g' & groups & Hids & Hperm & Hs & Hcat & Hok).
  exists ids, g'. split; [done|]. rewrite Hs, <-Hcat. do 2 f_equal.
  apply singletons_concat. rewrite Forall_forall in Hok |- *.
  intros grp Hgrp. destruct (Hok grp Hgrp) as [Hne _].
  destruct grp as [|i grp']; [done|]. exists i.
  apply (group_ok_oversized self); [by apply Hok|left|].
  apply Hover.
  assert (i ∈ concat groups) as Hin.
  { apply list_elem_of_In, in_concat. exists (i :: grp').
    split; apply list_elem_of_In; [done|left]. }
  rewrite Hcat, reverse_Permutation, Hperm in Hin. apply elem_of_seq in Hin. lia.
Qed.

Lemma sampler_all_oversized_witness :
  ∃ ids g',
    sampler_ids (toy_loader ds_5_3_9 2 false true) tape0 = Ok (ids, g')
    ∧ sampler (toy_loader ds_5_3_9 2 false true) tape0
      = Ok ((λ i, [i]) <$> reverse ids, g').
Proof.
  apply (sampler_all_oversized (toy_loader ds_5_3_9 2 false true) tape0).
  - by split.
  - intros idx Hidx. cbn in Hidx.
    do 3 (destruct idx as [|idx]; [reflexivity|]). lia.
Defined.

(** X5. A dataset without examples is no error: the sampler yields no
    group and leaves the random generator alone, [__iter__] returns an
    iterator with nothing pending, and the first [next] on it is
    [StopIteration]. *)
Theorem empty_dataset_no_batches (h : store) (r : nat) (self : Loader)
    (g : Random.state) :
  h !! r = Some self →
  AMRDataset.len (dataset self) = 0%nat →
  sampler self g = Ok ([], g)
  ∧ iter h r g = Ok ({| self_ref := r; pending := [] |}, g)
  ∧ ∀ h', next h' {| self_ref := r; pending := [] |} = StopIteration.
Proof.
  intros Hr Hn.
  assert (Hs : sampler self g = Ok ([], g)).
  { unfold sampler, sampler_ids. rewrite Hn. cbn.
    by destruct (shuffle self), (sort self). }
  split; [done|]. split; [|done].
  unfold iter. rewrite Hr. cbn. rewrite Hs. cbn. by destruct (shuffle self).
Qed.

Lemma empty_dataset_no_batches_witness :
  sampler (toy_loader ds_empty 20 true true) tape0 = Ok ([], tape0)
  ∧ iter {[ 3%nat := toy_loader ds_empty 20 true true ]} 3 tape0
    = Ok ({| self_ref := 3; pending := [] |}, tape0)
  ∧ ∀ h', next h' {| self_ref := 3; pending := [] |} = StopIteration.
Proof.
  apply (empty_dataset_no_batches {[ 3%nat := toy_loader ds_empty 20 true true ]}
           3 (toy_loader ds_empty 20 true true) tape0); reflexivity.
Defined.

(** ** Collation: padding, errors, the shift of the targets *)

Lemma mapM_Raise {A B} (f : A → result B) (l : list A) (e : exn) :
  (∀ x e', x ∈ l → f x = Raise e' → e' = e) →
  (∃ x e', x ∈ l ∧ f x = Raise e') →
  mapM f l = Raise e.
Proof.
  induction l as [|a l IH]; intros Hall (x & e' & Hx & Hfx).
  { by apply elem_of_nil in Hx. }
  cbn. destruct (f a) as [b|e0] eqn:Hfa; cbn.
  - rewrite IH; [done| |].
    + intros y e1 Hy. apply Hall. by right.
    + apply elem_of_cons in Hx as [->|Hx]; [congruence|by exists x, e'].
  - f_equal. eapply Hall; [left|done].
Qed.

Lemma to_tensor_Ok_any (samples : list (gmap string value)) (key_value : string)
    (padding_value : Z) (device : Device) (return_mask : bool)
    (seqs : list (list Z)) :
  - 2 ^ 53 ≤ padding_value ≤ 2 ^ 53 →
  samples ≠ [] →
  Forall2 (λ (s : gmap string value) t, s !! key_value = Some (VTensor t))
    samples seqs →
  let rows := (λ s : list Z,
                 s ++ replicate (max_list (length <$> seqs) - length s)%nat
                        padding_value) <$> seqs in
  to_tensor samples key_value padding_value device return_mask
  = Ok ({| data := rows; tdevice := device |},
        if return_mask
        then Some {| data := ne rows padding_value; tdevice := device |}
        else None).
Proof.
  intros Hn Hne HF rows. unfold to_tensor.
  assert (mapM (λ s, getkey s key_value) samples = Ok (VTensor <$> seqs)) as ->.
  { apply mapM_Ok_Forall2. apply Forall2_fmap_r.
    eapply Forall2_impl; [exact HF|]. cbn. intros s t Hs.
    unfold getkey. by rewrite Hs. }
  cbn -[pad_sequence].
  assert (mapM as_tensor (VTensor <$> seqs) = Ok seqs) as ->.
  { apply mapM_Ok_Forall2. apply Forall2_fmap_l, Forall_Forall2_diag.
    by apply Forall_forall. }
  cbn -[pad_sequence].
  rewrite pad_sequence_exact; [by destruct return_mask|done|].
  intros ->. apply Forall2_nil_inv_r in HF. done.
Qed.

(** X6. For a pad value of at most [2^53] in absolute value, also one that
    occurs in the data: [to_tensor] returns one row per sample, in the
    order of the samples, every row as long as the longest sequence; a row
    starts with its sequence and continues with the pad value only. The
    mask is returned exactly when asked for, and all tensors are on the
    requested device. *)
Theorem to_tensor_pads (samples : list (gmap string value)) (key_value : string)
    (padding_value : Z) (device : Device) (return_mask : bool)
    (seqs : list (list Z)) :
  - 2 ^ 53 ≤ padding_value ≤ 2 ^ 53 →
  samples ≠ [] →
  Forall2 (λ (s : gmap string value) t, s !! key_value = Some (VTensor t))
    samples seqs →
  ∃ input_ids mask,
    to_tensor samples key_value padding_value device return_mask
    = Ok (input_ids, mask)
    ∧ (return_mask = false ↔ mask = None)
    ∧ tdevice input_ids = device
    ∧ (∀ m, mask = Some m → tdevice m = device)
    ∧ length (data input_ids) = length samples
    ∧ ∀ i t, seqs !! i = Some t →
        ∃ row, data input_ids !! i = Some row
               ∧ length row = max_list (length <$> seqs)
               ∧ take (length t) row = t
               ∧ drop (length t) row
                 = replicate (max_list (length <$> seqs) - length t) padding_value.
Proof.
  intros Hn Hne HF. eexists _, _. split; [by apply to_tensor_Ok_any|]. cbn.
  split; [by destruct return_mask|]. split; [done|].
  split; [destruct return_mask; [by intros m [= <-]|done]|].
  rewrite length_fmap. split; [by rewrite (Forall2_length _ _ _ HF)|].
  intros i t Hi. eexists. rewrite list_lookup_fmap, Hi. cbn. split; [done|].
  assert (Hle : (length t ≤ max_list (length <$> seqs))%nat).
  { apply max_list_elem_of_le, list_elem_of_fmap. exists t. split; [done|].
    by eapply list_elem_of_lookup_2. }
  split; [rewrite length_app, length_replicate; lia|].
  split; [by rewrite take_app_length|by rewrite drop_app_length].
Qed.

Lemma to_tensor_pads_witness :
  ∃ input_ids mask,
    to_tensor two_samples "tokenized_ids" 1 (cuda 0) false = Ok (input_ids, mask)
    ∧ (false = false ↔ mask = None)
    ∧ tdevice input_ids = cuda 0
    ∧ (∀ m, mask = Some m → tdevice m = cuda 0)
    ∧ length (data input_ids) = length two_samples
    ∧ ∀ i t, [[0; 1; 2]; [0]] !! i = Some t →
        ∃ row, data input_ids !! i = Some row
               ∧ length row = max_list (length <$> [[0; 1; 2]; [0]])
               ∧ take (length t) row = t
               ∧ drop (length t) row
                 = replicate (max_list (length <$> [[0; 1; 2]; [0]]) - length t) 1.
Proof.
  apply (to_tensor_pads two_samples "tokenized_ids" 1 (cuda 0) false
           [[0; 1; 2]; [0]]).
  - lia.
  - done.
  - repeat constructor.
Defined.

(** X7. Malformed input is fatal at collation. [to_tensor] raises
    [KeyError] as soon as one sample lacks the field, [TypeError] when all
    samples have the field but one of them holds no tensor in it, and some
    error on an empty list of samples; it returns no tensor in these
    cases. *)
Theorem to_tensor_malformed (samples : list (gmap string value))
    (key_value : string) (padding_value : Z) (device : Device)
    (return_mask : bool) :
  ((∃ s, s ∈ samples ∧ s !! key_value = None) →
     to_tensor samples key_value padding_value device return_mask = Raise KeyError)
  ∧ ((∀ s, s ∈ samples → is_Some (s !! key_value)) →
     (∃ s v, s ∈ samples ∧ s !! key_value = Some v ∧ ∀ t, v ≠ VTensor t) →
     to_tensor samples key_value padding_value device return_mask = Raise TypeError)
  ∧ (samples = [] →
     ∃ e, to_tensor samples key_value padding_value device return_mask = Raise e).
Proof.
  split; [|split].
  - intros (s & Hs & Hnone). unfold to_tensor.
    rewrite (mapM_Raise _ _ KeyError); [done| |].
    + intros x e' _. unfold getkey. destruct (x !! key_value); congruence.
    + exists s, KeyError. split; [done|]. unfold getkey. by rewrite Hnone.
  - intros Hall (s & v & Hs & Hv & Hnt). unfold to_tensor.
    rewrite (mapM_Ok _ (λ s, default (VInt 0) (s !! key_value))); last first.
    { intros x Hx. unfold getkey. by destruct (Hall x Hx) as [w ->]. }
    cbn. rewrite (mapM_Raise _ _ TypeError); [done| |].
    + intros x e' _. destruct x; cbn; congruence.
    + exists v, TypeError. split.
      * apply list_elem_of_fmap. exists s. by rewrite Hv.
      * destruct v; try done. by destruct (Hnt t).
  - intros ->. unfold to_tensor. cbn -[pad_sequence]. unfold pad_sequence.
    destruct (float_of_int padding_value); by eexists.
Qed.

Lemma to_tensor_malformed_witness :
  to_tensor malformed_samples "tokenized_ids" 1 cpu true = Raise KeyError
  ∧ to_tensor [ {[ "tokenized_ids"%string := VStr "a" ]} ] "tokenized_ids" 1 cpu true
    = Raise TypeError
  ∧ ∃ e, to_tensor [] "tokenized_ids" 1 cpu true = Raise e.
Proof.
  split; [|split].
  - apply (to_tensor_malformed malformed_samples "tokenized_ids" 1 cpu true).
    exists {[ "sentence"%string := VStr "a" ]}. split; [|reflexivity].
    right. left.
  - apply (to_tensor_malformed [ {[ "tokenized_ids"%string := VStr "a" ]} ]
             "tokenized_ids" 1 cpu true).
    + intros s Hs. apply list_elem_of_singleton in Hs as ->. by eexists.
    + exists {[ "tokenized_ids"%string := VStr "a" ]}, (VStr "a").
      split; [left|]. split; [reflexivity|done].
  - by apply (to_tensor_malformed [] "tokenized_ids" 1 cpu true).
Defined.

Lemma to_tensor_inv (samples : list (gmap string value)) (key_value : string)
    (padding_value : Z) (device : Device) (return_mask : bool) t om :
  to_tensor samples key_value padding_value device return_mask = Ok (t, om) →
  samples ≠ []
  ∧ ∃ seqs,
      Forall2 (λ (s : gmap string value) t, s !! key_value = Some (VTensor t))
        samples seqs.
Proof.
  intros H. apply to_tensor_shape in H as (Hne & seqs & fill & HF & _).
  split; [done|]. by exists seqs.
Qed.

(** ** [reverse_direction] and the shifted targets *)




(** The targets that [collate_fn] returns, in terms of [to_tensor]. *)
Lemma collate_fn_targets (ds : AMRDataset.t) (samples : list (gmap string value))
    (d : Device) (x : Batch.X) (y : Batch.Y) (extra : Batch.Extra) :
  AMRDataset.collate_fn ds samples d = Ok (x, Some y, extra) →
  ∃ batch,
    to_tensor samples "linearized_graphs_ids"
      (pad_token_id (AMRDataset.tokenizer ds)) d false = Ok (batch, None)
    ∧ Batch.decoder_input_ids y = AMRDataset.drop_last_col batch
    ∧ Batch.labels y = AMRDataset.drop_first_col batch
    ∧ ∀ i rd rl,
        data (Batch.decoder_input_ids y) !! i = Some rd →
        data (Batch.labels y) !! i = Some rl →
        length rd = length rl
        ∧ ∀ j, (S j < length rd)%nat → rl !! j = rd !! S j.
Proof.
  unfold AMRDataset.collate_fn. intros H.
  inv_bind H as [t1 m1] eqn E1.
  inv_bind H as sents eqn Es.
  inv_bind H as s0 eqn E0.
  inv_bind H as [[gs lgs] y0] eqn Ey.
  inv_bind H as ids eqn Ei.
  inv_bind H as [t2 m2] eqn E2.
  inv_bind H as [t3 m3] eqn E3.
  unfold mret, result_ret in H. simplify_eq.
  case_bool_decide; cbn in Ey; [|unfold mret, result_ret in Ey; simplify_eq].
  inv_bind Ey as gs' eqn Eg.
  inv_bind Ey as lgs' eqn El.
  inv_bind Ey as [b om] eqn Eb.
  unfold mret, result_ret in Ey. simplify_eq.
  assert (om = None) as ->.
  { by apply to_tensor_shape in Eb as (_ & seqs & fill & _ & _ & ->). }
  exists b. split; [done|]. split; [done|]. split; [done|]. cbn.
  intros i rd rl Hrd Hrl. rewrite list_lookup_fmap in Hrd, Hrl.
  destruct (data b !! i) as [row|]; [|done]. cbn in Hrd, Hrl. simplify_eq.
  rewrite length_take, length_drop. split; [lia|].
  intros j Hj. rewrite lookup_drop, lookup_take_lt by lia. done.
Qed.

(** X8. When [collate_fn] returns targets, [decoder_input_ids] is the
    padded batch of linearized graphs without its last column and [labels]
    the same batch without its first column: in every row the two have equal
    lengths and [labels[i][j] = decoder_input_ids[i][j+1]]. *)
Theorem collate_fn_shift (ds : AMRDataset.t) (samples : list (gmap string value))
    (d : Device) (x : Batch.X) (y : Batch.Y) (extra : Batch.Extra) :
  AMRDataset.collate_fn ds samples d = Ok (x, Some y, extra) →
  ∃ batch,
    to_tensor samples "linearized_graphs_ids"
      (pad_token_id (AMRDataset.tokenizer ds)) d false = Ok (batch, None)
    ∧ Batch.decoder_input_ids y = AMRDataset.drop_last_col batch
    ∧ Batch.labels y = AMRDataset.drop_first_col batch
    ∧ ∀ i rd rl,
        data (Batch.decoder_input_ids y) !! i = Some rd →
        data (Batch.labels y) !! i = Some rl →
        length rd = length rl
        ∧ ∀ j, (S j < length rd)%nat → rl !! j = rd !! S j.
Proof. apply collate_fn_targets. Qed.

Lemma collate_fn_shift_witness :
  ∃ batch,
    to_tensor toy_group "linearized_graphs_ids"
      (pad_token_id (AMRDataset.tokenizer ds_5_3_9)) cpu false = Ok (batch, None)
    ∧ Batch.decoder_input_ids toy_y = AMRDataset.drop_last_col batch
    ∧ Batch.labels toy_y = AMRDataset.drop_first_col batch
    ∧ ∀ i rd rl,
        data (Batch.decoder_input_ids toy_y) !! i = Some rd →
        data (Batch.labels toy_y) !! i = Some rl →
        length rd = length rl
        ∧ ∀ j, (S j < length rd)%nat → rl !! j = rd !! S j.
Proof.
  apply (collate_fn_shift ds_5_3_9 toy_group cpu toy_batch.1.1 toy_y toy_batch.2).
  vm_compute. reflexivity.
Defined.

Lemma width_drop_last_col (t : Tensor) (w : nat) :
  width w t → width (w - 1) (AMRDataset.drop_last_col t).
Proof.
  unfold width. cbn. intros Hw. apply Forall_fmap.
  eapply Forall_impl; [exact Hw|]. cbn. intros row <-. rewrite length_take. lia.
Qed.






(** ** [__getitem__] and a whole pass *)

Lemma truthy_lookup {A} (l : list A) (i : nat) (a : A) :
  l !! i = Some a → truthy l = true.
Proof. by destruct l. Qed.

Lemma getitem_Ok (ds : AMRDataset.t) (idx : nat) snt x l e x_en s_en x_t s_t :
  AMRDataset.sentences ds !! idx = Some snt →
  AMRDataset.tokenized ds !! idx = Some x →
  AMRDataset.linearized ds !! idx = Some l →
  AMRDataset.linearized_extra ds !! idx = Some e →
  AMRDataset.tokenized_en ds !! idx = Some x_en →
  AMRDataset.sentences_en ds !! idx = Some s_en →
  AMRDataset.tokenized_teacher ds !! idx = Some x_t →
  AMRDataset.sentences_teacher ds !! idx = Some s_t →
  AMRDataset.getitem ds idx
  = Ok (<["sentence_teacher" := VStr s_t]>
          (<["tokenized_ids_teacher" := VTensor x_t]>
             (<["sentence_en" := VStr s_en]>
                (<["tokenized_ids_en" := VTensor x_en]>
                   (e ∪ <["linearized_graphs_ids" := VTensor l]>
                          (<["tokenized_ids" := VTensor x]>
                             (<["sentence" := VStr snt]>
                                (<["id" := id_value idx]> ∅)))))))).
Proof.
  intros Hs Hx Hl He Hxe Hse Hxt Hst. unfold AMRDataset.getitem.
  rewrite (index_Ok _ _ _ Hs). cbn. rewrite (index_Ok _ _ _ Hx). cbn.
  rewrite (truthy_lookup _ _ _ Hl), (index_Ok _ _ _ Hl). cbn.
  rewrite (index_Ok _ _ _ He). cbn.
  rewrite (truthy_lookup _ _ _ Hxe), (index_Ok _ _ _ Hxe). cbn.
  rewrite (index_Ok _ _ _ Hse). cbn.
  rewrite (truthy_lookup _ _ _ Hxt), (index_Ok _ _ _ Hxt). cbn.
  rewrite (index_Ok _ _ _ Hst). done.
Qed.

Lemma getitem_in_range (ds : AMRDataset.t) (idx : nat) :
  AMRDataset.wf ds → (idx < AMRDataset.len ds)%nat →
  ∃ sample snt x l e x_en s_en x_t s_t,
    AMRDataset.getitem ds idx = Ok sample
    ∧ AMRDataset.sentences ds !! idx = Some snt
    ∧ AMRDataset.tokenized ds !! idx = Some x
    ∧ AMRDataset.linearized ds !! idx = Some l
    ∧ AMRDataset.linearized_extra ds !! idx = Some e
    ∧ AMRDataset.tokenized_en ds !! idx = Some x_en
    ∧ AMRDataset.sentences_en ds !! idx = Some s_en
    ∧ AMRDataset.tokenized_teacher ds !! idx = Some x_t
    ∧ AMRDataset.sentences_teacher ds !! idx = Some s_t
    ∧ sample !! "tokenized_ids_en" = Some (VTensor x_en)
    ∧ sample !! "sentence_en" = Some (VStr s_en)
    ∧ sample !! "tokenized_ids_teacher" = Some (VTensor x_t)
    ∧ sample !! "sentence_teacher" = Some (VStr s_t)
    ∧ (∀ k v, e !! k = Some v →
         k ∉ ["tokenized_ids_en"; "sentence_en"; "tokenized_ids_teacher";
              "sentence_teacher"]%string →
         sample !! k = Some v)
    ∧ (e !! "id" = None → sample !! "id" = Some (id_value idx))
    ∧ (e !! "sentence" = None → sample !! "sentence" = Some (VStr snt))
    ∧ (e !! "tokenized_ids" = None →
       sample !! "tokenized_ids" = Some (VTensor x))
    ∧ (e !! "linearized_graphs_ids" = None →
       sample !! "linearized_graphs_ids" = Some (VTensor l)).
Proof.
  intros [H1 H2 H3 H4 H5 H6 H7] Hlt. unfold AMRDataset.len in *.
  destruct (lookup_lt_is_Some_2 (AMRDataset.sentences ds) idx) as [snt Hs]; [lia|].
  destruct (lookup_lt_is_Some_2 (AMRDataset.tokenized ds) idx) as [x Hx]; [lia|].
  destruct (lookup_lt_is_Some_2 (AMRDataset.linearized ds) idx) as [l Hl]; [lia|].
  destruct (lookup_lt_is_Some_2 (AMRDataset.linearized_extra ds) idx) as [e He]; [lia|].
  destruct (lookup_lt_is_Some_2 (AMRDataset.tokenized_en ds) idx) as [x_en Hxe]; [lia|].
  destruct (lookup_lt_is_Some_2 (AMRDataset.sentences_en ds) idx) as [s_en Hse]; [lia|].
  destruct (lookup_lt_is_Some_2 (AMRDataset.tokenized_teacher ds) idx) as [x_t Hxt]; [lia|].
  destruct (lookup_lt_is_Some_2 (AMRDataset.sentences_teacher ds) idx) as [s_t Hst]; [lia|].
  eexists _, snt, x, l, e, x_en, s_en, x_t, s_t.
  split; [by apply getitem_Ok|].
  do 8 (split; [done|]).
  split; [by simplify_map_eq|]. split; [by simplify_map_eq|].
  split; [by simplify_map_eq|]. split; [by simplify_map_eq|].
  split.
  { intros k v Hk Hnot.
    rewrite !lookup_insert_ne
      by (intros <-; apply Hnot; repeat first [apply list_elem_of_here|apply list_elem_of_further]).
    by apply lookup_union_Some_l. }
  split; [|split; [|split]]; intros Hnone;
    rewrite !lookup_insert_ne by done;
    rewrite lookup_union_r by done; by simplify_map_eq.
Qed.

(** X11. [dataset[idx]] raises [IndexError] for an index past the end. For
    an index in range it returns a sample whose English and teacher fields
    are those of the example; a key of the example's extra dictionary takes
    precedence over the fields [id], [sentence], [tokenized_ids] and
    [linearized_graphs_ids], which hold the values of the example when the
    extra dictionary does not use these names. *)
Theorem getitem_fields (ds : AMRDataset.t) (idx : nat) :
  ((AMRDataset.len ds ≤ idx)%nat → AMRDataset.getitem ds idx = Raise IndexError)
  ∧ (AMRDataset.wf ds → (idx < AMRDataset.len ds)%nat →
     ∃ sample snt x l e x_en s_en x_t s_t,
       AMRDataset.getitem ds idx = Ok sample
       ∧ AMRDataset.sentences ds !! idx = Some snt
       ∧ AMRDataset.tokenized ds !! idx = Some x
       ∧ AMRDataset.linearized ds !! idx = Some l
       ∧ AMRDataset.linearized_extra ds !! idx = Some e
       ∧ AMRDataset.tokenized_en ds !! idx = Some x_en
       ∧ AMRDataset.sentences_en ds !! idx = Some s_en
       ∧ AMRDataset.tokenized_teacher ds !! idx = Some x_t
       ∧ AMRDataset.sentences_teacher ds !! idx = Some s_t
       ∧ sample !! "tokenized_ids_en" = Some (VTensor x_en)
       ∧ sample !! "sentence_en" = Some (VStr s_en)
       ∧ sample !! "tokenized_ids_teacher" = Some (VTensor x_t)
       ∧ sample !! "sentence_teacher" = Some (VStr s_t)
       ∧ (∀ k v, e !! k = Some v →
            k ∉ ["tokenized_ids_en"; "sentence_en"; "tokenized_ids_teacher";
                 "sentence_teacher"]%string →
            sample !! k = Some v)
       ∧ (e !! "id" = None → sample !! "id" = Some (id_value idx))
       ∧ (e !! "sentence" = None → sample !! "sentence" = Some (VStr snt))
       ∧ (e !! "tokenized_ids" = None →
          sample !! "tokenized_ids" = Some (VTensor x))
       ∧ (e !! "linearized_graphs_ids" = None →
          sample !! "linearized_graphs_ids" = Some (VTensor l))).
Proof.
  split.
  - intros Hge. unfold AMRDataset.getitem, index.
    by rewrite (lookup_ge_None_2 (AMRDataset.sentences ds) idx).
  - apply getitem_in_range.
Qed.

Lemma getitem_fields_witness :
  AMRDataset.getitem ds_5_3_9 7 = Raise IndexError
  ∧ ∃ sample snt x l e x_en s_en x_t s_t,
      AMRDataset.getitem ds_5_3_9 1 = Ok sample
      ∧ AMRDataset.sentences ds_5_3_9 !! 1%nat = Some snt
      ∧ AMRDataset.tokenized ds_5_3_9 !! 1%nat = Some x
      ∧ AMRDataset.linearized ds_5_3_9 !! 1%nat = Some l
      ∧ AMRDataset.linearized_extra ds_5_3_9 !! 1%nat = Some e
      ∧ AMRDataset.tokenized_en ds_5_3_9 !! 1%nat = Some x_en
      ∧ AMRDataset.sentences_en ds_5_3_9 !! 1%nat = Some s_en
      ∧ AMRDataset.tokenized_teacher ds_5_3_9 !! 1%nat = Some x_t
      ∧ AMRDataset.sentences_teacher ds_5_3_9 !! 1%nat = Some s_t
      ∧ sample !! "tokenized_ids_en" = Some (VTensor x_en)
      ∧ sample !! "sentence_en" = Some (VStr s_en)
      ∧ sample !! "tokenized_ids_teacher" = Some (VTensor x_t)
      ∧ sample !! "sentence_teacher" = Some (VStr s_t)
      ∧ (∀ k v, e !! k = Some v →
           k ∉ ["tokenized_ids_en"; "sentence_en"; "tokenized_ids_teacher";
                "sentence_teacher"]%string →
           sample !! k = Some v)
      ∧ (e !! "id" = None → sample !! "id" = Some (id_value 1))
      ∧ (e !! "sentence" = None → sample !! "sentence" = Some (VStr snt))
      ∧ (e !! "tokenized_ids" = None →
         sample !! "tokenized_ids" = Some (VTensor x))
      ∧ (e !! "linearized_graphs_ids" = None →
         sample !! "linearized_graphs_ids" = Some (VTensor l)).
Proof.
  split.
  - apply (getitem_fields ds_5_3_9 7). cbn. lia.
  - apply (getitem_fields ds_5_3_9 1); [by split|cbn; lia].
Defined.

Ltac solve_not_in :=
  repeat (apply not_elem_of_cons; split; [done|]); apply not_elem_of_nil.

Lemma getitem_sample_ok (ds : AMRDataset.t) (idx : nat) (s : gmap string value) :
  AMRDataset.wf ds → extras_ok ds → (idx < AMRDataset.len ds)%nat →
  AMRDataset.getitem ds idx = Ok s →
  sample_ok idx s.
Proof.
  intros Hwf Hex Hlt Hget.
  destruct (getitem_in_range ds idx Hwf Hlt)
    as (s' & snt & x & l & e & x_en & s_en & x_t & s_t & Hget' & _ & _ & _ & He
        & _ & _ & _ & _ & Hxe & _ & Hxt & _ & Hover & Hid & Hsnt & Hx & Hl).
  rewrite Hget in Hget'. simplify_eq.
  unfold extras_ok in Hex. rewrite Forall_lookup in Hex.
  destruct (Hex idx e He) as ([vg Hg] & [vl Hlg] & Hnid & Hns & Hnx & Hnl).
  split; [by apply Hid|]. split; [by rewrite Hsnt|].
  split; [by exists x; apply Hx|]. split; [by exists l; apply Hl|].
  split; [exists vg; apply Hover; [done|solve_not_in]|].
  split; [exists vl; apply Hover; [done|solve_not_in]|].
  split; by eexists.
Qed.

Lemma Forall2_tensor_seqs (key : string) (samples : list (gmap string value))
    (grp : list nat) :
  Forall2 (λ (s : gmap string value) (_ : nat), ∃ t, s !! key = Some (VTensor t))
    samples grp →
  ∃ seqs, Forall2 (λ (s : gmap string value) t, s !! key = Some (VTensor t))
            samples seqs.
Proof.
  induction 1 as [|s idx samples grp [t Ht] _ (seqs & IH)].
  - by exists [].
  - exists (t :: seqs). by constructor.
Qed.

Lemma mapM_getkey_Ok (key : string) (samples : list (gmap string value)) :
  Forall (λ s, is_Some (s !! key)) samples →
  ∃ vs, mapM (λ s, getkey s key) samples = Ok vs.
Proof.
  intros Hall. exists ((λ s, default (VInt 0) (s !! key)) <$> samples).
  apply mapM_Ok. intros s Hs. rewrite Forall_forall in Hall.
  destruct (Hall s Hs) as [v Hv]. unfold getkey. by rewrite Hv.
Qed.

Lemma to_tensor_mask_Ok (samples : list (gmap string value)) (key : string)
    (pad : Z) (d : Device) (seqs : list (list Z)) :
  - 2 ^ 53 ≤ pad ≤ 2 ^ 53 →
  samples ≠ [] →
  Forall2 (λ (s : gmap string value) t, s !! key = Some (VTensor t)) samples seqs →
  ∃ t m, to_tensor_mask samples key pad d = Ok (t, m)
         ∧ length (data t) = length samples.
Proof.
  intros Hn Hne HF. unfold to_tensor_mask.
  rewrite (to_tensor_Ok_any _ _ pad d true _ Hn Hne HF). cbn.
  eexists _, _. split; [done|]. cbn.
  by rewrite length_fmap, (Forall2_length _ _ _ HF).
Qed.

Lemma collate_fn_Ok (ds : AMRDataset.t) (samples : list (gmap string value))
    (grp : list nat) (d : Device) :
  - 2 ^ 53 ≤ pad_token_id (AMRDataset.tokenizer ds) ≤ 2 ^ 53 →
  - 2 ^ 53 ≤ pad_token_id (AMRDataset.teacher_tokenizer ds) ≤ 2 ^ 53 →
  grp ≠ [] →
  Forall2 (λ s idx, sample_ok idx s) samples grp →
  ∃ x y extra,
    AMRDataset.collate_fn ds samples d = Ok (x, Some y, extra)
    ∧ Batch.ids extra = id_value <$> grp
    ∧ length (data (Batch.input_ids x)) = length grp.
Proof.
  intros Hpad Hpad' Hgrp HF.
  assert (Hne : samples ≠ []).
  { intros ->. by apply Forall2_nil_inv_l in HF. }
  assert (Hlen : length samples = length grp) by (by eapply Forall2_length).
  assert (Hall : ∀ (Q : gmap string value → Prop),
            (∀ idx s, sample_ok idx s → Q s) → Forall Q samples).
  { intros Q HQ. clear Hne Hlen Hgrp. induction HF; constructor; eauto. }
  destruct (Forall2_tensor_seqs "tokenized_ids" samples grp) as [seqs1 H1].
  { eapply Forall2_impl; [exact HF|]. by intros s idx (_ & _ & ? & _). }
  destruct (Forall2_tensor_seqs "linearized_graphs_ids" samples grp) as [seqs2 H2].
  { eapply Forall2_impl; [exact HF|]. by intros s idx (_ & _ & _ & ? & _). }
  destruct (Forall2_tensor_seqs "tokenized_ids_en" samples grp) as [seqs3 H3].
  { eapply Forall2_impl; [exact HF|].
    by intros s idx (_ & _ & _ & _ & _ & _ & ? & _). }
  destruct (Forall2_tensor_seqs "tokenized_ids_teacher" samples grp) as [seqs4 H4].
  { eapply Forall2_impl; [exact HF|].
    by intros s idx (_ & _ & _ & _ & _ & _ & _ & ?). }
  destruct (to_tensor_mask_Ok samples "tokenized_ids"
              (pad_token_id (AMRDataset.tokenizer ds)) d _ Hpad Hne H1)
    as (t1 & m1 & E1 & Hrows).
  destruct (to_tensor_mask_Ok samples "tokenized_ids_en"
              (pad_token_id (AMRDataset.tokenizer ds)) d _ Hpad Hne H3)
    as (t3 & m3 & E3 & _).
  destruct (to_tensor_mask_Ok samples "tokenized_ids_teacher"
              (pad_token_id (AMRDataset.teacher_tokenizer ds)) d _ Hpad' Hne H4)
    as (t4 & m4 & E4 & _).
  destruct (mapM_getkey_Ok "sentence" samples) as [sents Es].
  { apply Hall. by intros idx s (_ & ? & _). }
  destruct (mapM_getkey_Ok "graphs" samples) as [gs Eg].
  { apply Hall. by intros idx s (_ & _ & _ & _ & ? & _). }
  destruct (mapM_getkey_Ok "linearized_graphs" samples) as [lgs El].
  { apply Hall. by intros idx s (_ & _ & _ & _ & _ & ? & _). }
  assert (Ei : mapM (λ s, getkey s "id") samples = Ok (id_value <$> grp)).
  { apply mapM_Ok_Forall2, Forall2_fmap_r.
    eapply Forall2_impl; [exact HF|]. cbn. intros s idx (Hid & _).
    unfold getkey. by rewrite Hid. }
  destruct samples as [|s0 samples']; [done|].
  assert (Hs0 : is_Some (s0 !! "linearized_graphs_ids")).
  { apply Forall2_cons_inv_l in HF as (idx0 & grp' & H0 & _ & _).
    destruct H0 as (_ & _ & _ & [l ->] & _). by eexists. }
  unfold AMRDataset.collate_fn.
  rewrite E1. cbn -[mapM to_tensor to_tensor_mask].
  rewrite Es. cbn -[mapM to_tensor to_tensor_mask].
  rewrite (bool_decide_eq_true_2 _ Hs0).
  rewrite Eg. cbn -[mapM to_tensor to_tensor_mask].
  rewrite El. cbn -[mapM to_tensor to_tensor_mask].
  rewrite (to_tensor_Ok_any _ _ _ d false _ Hpad Hne H2).
  cbn -[mapM to_tensor to_tensor_mask].
  rewrite Ei. cbn -[mapM to_tensor to_tensor_mask].
  rewrite E3. cbn -[mapM to_tensor to_tensor_mask].
  rewrite E4. cbn -[mapM to_tensor to_tensor_mask].
  eexists _, _, _. split; [done|]. cbn. split; [done|]. by rewrite Hrows.
Qed.

Lemma concat_Permutation_groups {A} (l k : list (list A)) :
  l ≡ₚ k → concat l ≡ₚ concat k.
Proof.
  induction 1 as [|x l k _ IH|x y l|l k m _ IH1 _ IH2]; cbn.
  - done.
  - by rewrite IH.
  - rewrite !app_assoc. f_equiv. apply Permutation_app_comm.
  - by etrans.
Qed.

Lemma concat_fmap_groups {A B} (f : A → B) (l : list (list A)) :
  concat ((λ x : list A, f <$> x) <$> l) = f <$> concat l.
Proof.
  induction l as [|x l IH]; [done|]. cbn. by rewrite IH, fmap_app.
Qed.

Lemma Forall2_fmap_eq {A B C} (f : A → C) (g : B → C) (l : list A) (k : list B) :
  Forall2 (λ x y, f x = g y) l k → f <$> l = g <$> k.
Proof. induction 1 as [|x y l k Hxy _ IH]; [done|]. cbn. by rewrite Hxy, IH. Qed.

Lemma drain_Ok (h : store) (self : Loader) (r : nat)
    (pend : list (list (gmap string value))) (grps : list (list nat)) :
  h !! r = Some self →
  - 2 ^ 53 ≤ pad_token_id (AMRDataset.tokenizer (dataset self)) ≤ 2 ^ 53 →
  - 2 ^ 53 ≤ pad_token_id (AMRDataset.teacher_tokenizer (dataset self)) ≤ 2 ^ 53 →
  Forall2 (λ b grp, grp ≠ [] ∧ Forall2 (λ s idx, sample_ok idx s) b grp)
    pend grps →
  ∃ batches,
    drain (S (length pend)) h {| self_ref := r; pending := pend |} = Ok batches
    ∧ Forall2 (λ (batch : Batch.t) grp,
                 Batch.ids batch.2 = id_value <$> grp
                 ∧ is_Some batch.1.2
                 ∧ batch_on (device self) batch
                 ∧ length (data (Batch.input_ids batch.1.1)) = length grp)
        batches grps.
Proof.
  intros Hr Hpad Hpad'.
  induction 1 as [|b grp pend grps [Hne Hb] _ (batches & IH & HF)].
  - exists []. split; [done|constructor].
  - destruct (collate_fn_Ok (dataset self) b grp (device self) Hpad Hpad' Hne Hb)
      as (x & y & extra & Hc & Hids & Hrows).
    exists ((x, Some y, extra) :: batches). split.
    + change (drain (S (length (b :: pend))) h {| self_ref := r; pending := b :: pend |})
        with (match next h {| self_ref := r; pending := b :: pend |} with
              | StopIteration => mret []
              | Yield batch it' =>
                  rest ← drain (S (length pend)) h it'; mret (batch :: rest)
              | Raised e => Raise e
              end).
      assert (next h {| self_ref := r; pending := b :: pend |}
              = Yield (x, Some y, extra) {| self_ref := r; pending := pend |}) as ->.
      { unfold next. cbn. by rewrite Hr, Hc. }
      by rewrite IH.
    + constructor; [|done]. cbn. split; [done|]. split; [by eexists|].
      split; [|done]. by apply collate_fn_device in Hc.
Qed.

(** X12. A whole pass over a well-formed dataset whose extra dictionaries
    hold [graphs] and [linearized_graphs] and redefine none of [id],
    [sentence], [tokenized_ids] and [linearized_graphs_ids], and whose two
    tokenizers have pad token ids of at most [2^53] in absolute value,
    raises nothing and produces one batch per group of the sampler, in the
    order of [__iter__] (the order of the sampler when shuffle is off):
    batch [k] has one row per example of group [k], carries the ids of that
    group in its order, has targets, and is on the loader's device. Over
    the pass every example is in exactly one batch. *)
Theorem epoch_one_batch_per_group (h : store) (r : nat) (self : Loader)
    (g : Random.state) :
  h !! r = Some self →
  AMRDataset.wf (dataset self) →
  extras_ok (dataset self) →
  - 2 ^ 53 ≤ pad_token_id (AMRDataset.tokenizer (dataset self)) ≤ 2 ^ 53 →
  - 2 ^ 53 ≤ pad_token_id (AMRDataset.teacher_tokenizer (dataset self)) ≤ 2 ^ 53 →
  ∃ batches g' groups g1 groups',
    epoch h r g = Ok (batches, g')
    ∧ sampler self g = Ok (groups, g1)
    ∧ groups' ≡ₚ groups
    ∧ (shuffle self = false → groups' = groups)
    ∧ Forall2 (λ (batch : Batch.t) grp,
                 Batch.ids batch.2 = id_value <$> grp
                 ∧ is_Some batch.1.2
                 ∧ batch_on (device self) batch
                 ∧ length (data (Batch.input_ids batch.1.1)) = length grp)
        batches groups'
    ∧ concat ((λ batch : Batch.t, Batch.ids batch.2) <$> batches)
      ≡ₚ id_value <$> seq 0 (AMRDataset.len (dataset self)).
Proof.
  intros Hr Hwf Hex Hpad Hpad'.
  destruct (sampler_spec self g Hwf)
    as (ids & g1 & groups & _ & Hperm & Hs & Hcat & Hok).
  assert (Hrange : ∀ grp idx, grp ∈ groups → idx ∈ grp →
                     (idx < AMRDataset.len (dataset self))%nat).
  { intros grp idx Hg Hi.
    assert (idx ∈ concat groups) as Hin.
    { apply list_elem_of_In, in_concat. exists grp.
      by split; apply list_elem_of_In. }
    rewrite Hcat, reverse_Permutation, Hperm in Hin.
    apply elem_of_seq in Hin. lia. }
  set (sample := λ idx, match AMRDataset.getitem (dataset self) idx with
                        | Ok s => s | Raise _ => ∅ end).
  assert (Hget : ∀ idx, (idx < AMRDataset.len (dataset self))%nat →
                   AMRDataset.getitem (dataset self) idx = Ok (sample idx)).
  { intros idx Hlt. subst sample. cbn.
    destruct (getitem_in_range _ idx Hwf Hlt) as (s & ? & ? & ? & ? & ? & ? & ? & ? & -> & _).
    done. }
  assert (Hm : mapM (λ b, mapM (λ s, AMRDataset.getitem (dataset self) s) b) groups
               = Ok ((λ grp : list nat, sample <$> grp) <$> groups)).
  { apply mapM_Ok. intros grp Hg. apply mapM_Ok. intros idx Hi.
    apply Hget. by apply (Hrange grp). }
  assert (Hiter : ∃ it g2, iter h r g = Ok (it, g2)).
  { unfold iter. rewrite Hr. cbn. rewrite Hs. cbn. rewrite Hm. cbn.
    destruct (shuffle self); [|by eexists _, _].
    destruct (Random.shuffle _ g1). by eexists _, _. }
  destruct Hiter as (it & g2 & Hiter).
  destruct (iter_spec h r self g g2 it Hr Hiter)
    as (groups0 & g0 & groups' & Hs0 & Hp & Hno & Href & HF).
  rewrite Hs in Hs0. simplify_eq.
  rewrite Forall_forall in Hok.
  destruct it as [r' pend]. cbn in HF.
  destruct (drain_Ok h self r' pend groups' Hr Hpad Hpad') as (batches & Hd & Hb).
  { apply Forall2_same_length_lookup in HF as [Hlen HF].
    apply Forall2_same_length_lookup. split; [done|].
    intros i b grp Hb_i Hg_i. specialize (HF i b grp Hb_i Hg_i).
    assert (grp ∈ groups0) as Hg.
    { rewrite <-Hp. by eapply list_elem_of_lookup_2. }
    split; [by destruct (Hok grp Hg)|].
    apply Forall2_same_length_lookup in HF as [Hlen' HF].
    apply Forall2_same_length_lookup. split; [done|].
    intros j s idx Hs_j Hidx_j.
    apply (getitem_sample_ok (dataset self)); [done|done| |by eapply HF].
    apply (Hrange grp); [done|]. by eapply list_elem_of_lookup_2. }
  exists batches, g2, groups0, g0, groups'.
  split.
  { unfold epoch. rewrite Hiter. cbn -[drain]. rewrite Hd. done. }
  split; [done|]. split; [done|]. split; [done|]. split; [done|].
  assert (((λ batch : Batch.t, Batch.ids batch.2) <$> batches)
          = (λ grp : list nat, id_value <$> grp) <$> groups') as ->.
  { apply Forall2_fmap_eq. eapply Forall2_impl; [exact Hb|].
    by intros batch grp (? & _). }
  rewrite concat_fmap_groups. f_equiv.
  by rewrite (concat_Permutation_groups _ _ Hp), Hcat, reverse_Permutation.
Qed.

Lemma epoch_one_batch_per_group_witness :
  ∃ batches g' groups g1 groups',
    epoch toy_store 0 tape0 = Ok (batches, g')
    ∧ sampler (toy_loader ds_5_3_9 20 true true) tape0 = Ok (groups, g1)
    ∧ groups' ≡ₚ groups
    ∧ (shuffle (toy_loader ds_5_3_9 20 true true) = false → groups' = groups)
    ∧ Forall2 (λ (batch : Batch.t) grp,
                 Batch.ids batch.2 = id_value <$> grp
                 ∧ is_Some batch.1.2
                 ∧ batch_on (device (toy_loader ds_5_3_9 20 true true)) batch
                 ∧ length (data (Batch.input_ids batch.1.1)) = length grp)
        batches groups'
    ∧ concat ((λ batch : Batch.t, Batch.ids batch.2) <$> batches)
      ≡ₚ id_value <$> seq 0 (AMRDataset.len ds_5_3_9).
Proof.
  apply (epoch_one_batch_per_group toy_store 0 (toy_loader ds_5_3_9 20 true true)
           tape0).
  - reflexivity.
  - by split.
  - unfold extras_ok. cbn.
    repeat (apply Forall_cons; split; [split_and!; by (reflexivity || eexists)|]).
    apply Forall_nil_2.
  - cbn. lia.
  - cbn. lia.
Defined.

(** ** Sharding by rank and merging the predictions *)

Lemma every_nth_lookup {A} (step wait k : nat) (l : list A) :
  (0 < step)%nat →
  every_nth step wait l !! k = l !! (wait + k * step)%nat.
Proof.
  intros Hstep. revert wait k.
  induction l as [|a r IH]; intros wait k; [done|].
  destruct wait as [|w]; cbn [every_nth].
  - destruct k as [|k]; [done|]. cbn [lookup list_lookup]. rewrite IH.
    replace (0 + S k * step)%nat with (S (step - 1 + k * step)) by lia. done.
  - rewrite IH. done.
Qed.

Lemma every_nth_fmap {A B} (f : A → B) (step wait : nat) (l : list A) :
  every_nth step wait (f <$> l) = f <$> every_nth step wait l.
Proof.
  revert wait. induction l as [|a r IH]; intros wait; [done|].
  destruct wait as [|w]; cbn; by rewrite IH.
Qed.

Lemma sum_list_shift (f : nat → nat) (n : nat) :
  sum_list (f <$> seq 1 n) = sum_list ((λ i, f (S i)) <$> seq 0 n).
Proof. by rewrite <-fmap_S_seq, <-list_fmap_compose. Qed.

Lemma sum_list_snoc_seq (f : nat → nat) (n : nat) :
  sum_list (f <$> seq 0 (S n)) = (sum_list (f <$> seq 0 n) + f n)%nat.
Proof.
  rewrite seq_S, fmap_app, sum_list_with_app. cbn. lia.
Qed.

Lemma every_nth_total_length {A} (step : nat) (l : list A) :
  (0 < step)%nat →
  sum_list ((λ rk, length (every_nth step rk l)) <$> seq 0 step) = length l.
Proof.
  intros Hstep. induction l as [|a r IH].
  { rewrite (sum_list_fmap_same 0); [cbn; lia|]. by apply Forall_forall. }
  destruct step as [|n]; [lia|].
  rewrite sum_list_snoc_seq in IH.
  change (seq 0 (S n)) with (0%nat :: seq 1 n). cbn [fmap list_fmap sum_list sum_list_with].
  rewrite (sum_list_shift (λ rk, length (every_nth (S n) rk (a :: r)))).
  cbn [every_nth length]. replace (S n - 1)%nat with n by lia.
  cbn [length] in *. unfold id, fmap in *. lia.
Qed.

(** X13. [graphs[rank::world_size]] raises [ValueError] for a world size
    of 0. Otherwise element [k] of the shard of a rank is element
    [rank + k * world_size] of the list, so that element [i] of the list is
    in the shard of rank [i % world_size], at position [i // world_size],
    and in no other place. *)
Theorem slice_by_rank {A} (rank world_size : nat) (l : list A) :
  (world_size = 0%nat → slice_from_step rank world_size l = Fails ValueError)
  ∧ ((0 < world_size)%nat →
     ∃ shard,
       slice_from_step rank world_size l = Done shard
       ∧ (∀ k, shard !! k = l !! (rank + k * world_size)%nat)
       ∧ ((rank < world_size)%nat →
          ∀ i x, l !! i = Some x →
            (shard !! (i `div` world_size)%nat = Some x
             ∧ (i `mod` world_size)%nat = rank)
            ∨ ((i `mod` world_size)%nat ≠ rank
               ∧ ∀ k, (rank + k * world_size)%nat ≠ i))).
Proof.
  split; [by intros ->|]. intros Hws.
  exists (every_nth world_size rank l). split; [by destruct world_size; [lia|]|].
  split; [intros k; by apply every_nth_lookup|].
  intros Hrank i x Hi.
  destruct (decide ((i `mod` world_size)%nat = rank)) as [Heq|Hne].
  - left. split; [|done]. rewrite every_nth_lookup by done. rewrite <-Hi. f_equal.
    pose proof (Nat.div_mod_eq i world_size). lia.
  - right. split; [done|]. intros k Hk. apply Hne. subst i.
    rewrite Nat.Div0.mod_add. by apply Nat.mod_small.
Qed.

Lemma slice_by_rank_witness :
  slice_from_step 1 0 [10; 11; 12; 13; 14]%nat = Fails ValueError
  ∧ ∃ shard,
      slice_from_step 1 2 [10; 11; 12; 13; 14]%nat = Done shard
      ∧ (∀ k, shard !! k = [10; 11; 12; 13; 14]%nat !! (1 + k * 2)%nat)
      ∧ ((1 < 2)%nat →
         ∀ i x, [10; 11; 12; 13; 14]%nat !! i = Some x →
           (shard !! (i `div` 2)%nat = Some x ∧ (i `mod` 2)%nat = 1%nat)
           ∨ ((i `mod` 2)%nat ≠ 1%nat ∧ ∀ k, (1 + k * 2)%nat ≠ i)).
Proof.
  split.
  - by apply (slice_by_rank 1 0 [10; 11; 12; 13; 14]%nat).
  - apply (slice_by_rank 1 2 [10; 11; 12; 13; 14]%nat). lia.
Defined.

Lemma merge_slices {A} (world_size : nat) (l : list A) :
  (0 < world_size)%nat →
  merge_pieces world_size (λ rk, every_nth world_size rk l) = Ok l.
Proof.
  intros Hws. unfold merge_pieces.
  assert (sum_list (length <$> ((λ rk, every_nth world_size rk l) <$> seq 0 world_size))
          = length l) as ->.
  { rewrite <-list_fmap_compose. by apply (every_nth_total_length world_size l). }
  apply mapM_Ok_Forall2, Forall2_same_length_lookup.
  split; [by rewrite length_seq|].
  intros i j x Hj Hx. apply lookup_seq in Hj as [-> Hi]. cbn in *.
  assert (Hmod : (i `mod` world_size < world_size)%nat) by (apply Nat.mod_upper_bound; lia).
  rewrite (index_Ok _ _ (every_nth world_size (i `mod` world_size) l)).
  - cbn. apply index_Ok. rewrite every_nth_lookup by done. rewrite <-Hx. f_equal.
    pose proof (Nat.div_mod_eq i world_size). lia.
  - rewrite list_lookup_fmap, lookup_seq_lt by done. done.
Qed.

Lemma string_app_nil_l (s : string) : "" +:+ s = s.
Proof. reflexivity. Qed.

Lemma string_app_cons (c : ascii) (s t : string) :
  String c s +:+ t = String c (s +:+ t).
Proof. reflexivity. Qed.

Lemma string_app_nil_r (s : string) : s +:+ "" = s.
Proof. induction s as [|c s IH]; [done|]. by rewrite string_app_cons, IH. Qed.

Lemma string_app_assoc (s t u : string) : (s +:+ t) +:+ u = s +:+ (t +:+ u).
Proof. induction s as [|c s IH]; [done|]. by rewrite !string_app_cons, IH. Qed.

Lemma clean_piece_cons (c : ascii) (p : string) :
  clean_piece (String c p) = true →
  c ≠ CR ∧ clean_piece p = true
  ∧ match p with
    | "" => c ≠ LF
    | String c' _ => ¬ (c = LF ∧ c' = LF)
    end.
Proof.
  cbn [clean_piece]. intros H.
  apply andb_true_iff in H as [H Hp]. apply andb_true_iff in H as [Hc H].
  apply negb_true_iff, bool_decide_eq_false in Hc.
  split; [done|]. split; [done|].
  destruct p as [|c' p'].
  - by apply negb_true_iff, bool_decide_eq_false in H.
  - apply negb_true_iff, andb_false_iff in H.
    intros [-> ->]. by destruct H as [H|H]; apply bool_decide_eq_false in H.
Qed.

Lemma split_blank_line_step (acc : string) (c c' : ascii) (rest : string) :
  ¬ (c = LF ∧ c' = LF) →
  split_blank_line acc (String c (String c' rest))
  = split_blank_line (acc +:+ String c "") (String c' rest).
Proof.
  intros Hn. cbn [split_blank_line].
  destruct (bool_decide (c = LF)) eqn:H1; [|done].
  destruct (bool_decide (c' = LF)) eqn:H2; [|done].
  apply bool_decide_eq_true in H1, H2. by destruct Hn.
Qed.

(** A clean piece is not cut. *)
Lemma split_blank_line_clean (p acc : string) :
  clean_piece p = true → split_blank_line acc p = [acc +:+ p].
Proof.
  revert acc. induction p as [|c p IH]; intros acc Hp.
  - by rewrite string_app_nil_r.
  - apply clean_piece_cons in Hp as (_ & Hp & Hc).
    destruct p as [|c' p']; [done|].
    rewrite split_blank_line_step by done.
    rewrite IH by done. by rewrite string_app_assoc.
Qed.

(** A clean piece followed by the separator is cut off at the separator. *)
Lemma split_blank_line_sep (p acc rest : string) :
  clean_piece p = true →
  split_blank_line acc (p +:+ String LF (String LF rest))
  = (acc +:+ p) :: split_blank_line "" rest.
Proof.
  revert acc. induction p as [|c p IH]; intros acc Hp.
  - rewrite string_app_nil_r, string_app_nil_l. cbn [split_blank_line].
    by rewrite !bool_decide_eq_true_2.
  - apply clean_piece_cons in Hp as (_ & Hp & Hc).
    destruct p as [|c' p'].
    + rewrite string_app_cons, string_app_nil_l.
      rewrite split_blank_line_step by (by intros [? _]).
      cbn [split_blank_line]. by rewrite !bool_decide_eq_true_2.
    + rewrite !string_app_cons. rewrite split_blank_line_step by done.
      rewrite <-string_app_cons. rewrite IH by done.
      by rewrite string_app_assoc.
Qed.

Lemma universal_newlines_app (p text : string) :
  clean_piece p = true →
  universal_newlines (p +:+ text) = p +:+ universal_newlines text.
Proof.
  induction p as [|c p IH]; intros Hp; [done|].
  apply clean_piece_cons in Hp as (Hc & Hp & _).
  rewrite !string_app_cons. cbn [universal_newlines].
  rewrite bool_decide_eq_false_2 by done. by rewrite IH.
Qed.

Lemma universal_newlines_join (pieces : list string) :
  Forall (λ p, clean_piece p = true) pieces →
  universal_newlines (join_blank_line pieces) = join_blank_line pieces.
Proof.
  induction 1 as [|p pieces Hp _ IH]; [done|].
  destruct pieces as [|q pieces].
  - cbn [join_blank_line]. rewrite <-(string_app_nil_r p) at 1.
    rewrite universal_newlines_app by done. cbn [universal_newlines].
    by rewrite string_app_nil_r.
  - change (join_blank_line (p :: q :: pieces))
      with (p +:+ String LF (String LF (join_blank_line (q :: pieces)))).
    rewrite universal_newlines_app by done. f_equal.
    cbn [universal_newlines]. rewrite !(bool_decide_eq_false_2 (LF = CR)) by done.
    by rewrite IH.
Qed.

(** What rank 0 reads back from a file: the pieces written, and one empty
    piece when none was written. *)
Lemma read_pieces_write_text (pieces : list string) :
  Forall (λ p, clean_piece p = true) pieces →
  read_pieces (write_text pieces)
  = match pieces with [] => [""%string] | _ => pieces end.
Proof.
  intros Hall. unfold read_pieces, write_text.
  rewrite universal_newlines_join by done.
  induction Hall as [|p pieces Hp _ IH]; [done|].
  destruct pieces as [|q pieces].
  - cbn [join_blank_line]. by rewrite split_blank_line_clean.
  - change (join_blank_line (p :: q :: pieces))
      with (p +:+ String LF (String LF (join_blank_line (q :: pieces)))).
    rewrite split_blank_line_sep by done. by rewrite string_app_nil_l, IH.
Qed.

Lemma every_nth_nil_iff {A} (step wait : nat) (l : list A) :
  (0 < step)%nat → every_nth step wait l = [] ↔ (length l ≤ wait)%nat.
Proof.
  intros Hstep.
  pose proof (every_nth_lookup step wait 0 l Hstep) as H0.
  replace (wait + 0 * step)%nat with wait in H0 by lia.
  split.
  - intros Hnil. rewrite Hnil in H0. by apply lookup_ge_None.
  - intros Hle. rewrite (lookup_ge_None_2 l wait Hle) in H0.
    by destruct (every_nth step wait l).
Qed.

(** X14. The merge of the predictions in [smatch_eval], through the files
    of the ranks. Every rank below [world_size] has written one piece per
    element of its shard [graphs[rank::world_size]], in the order of the
    shard, and no piece holds a carriage return or a blank line or ends
    with a line feed. Then no [IndexError] is raised, and the merged list
    has the pieces in the order of [graphs], followed by one empty piece
    for every rank whose shard is empty: the file of such a rank is empty
    and is read back as one empty piece. With at least [world_size] graphs
    the merge undoes the sharding. *)
Theorem merge_files_after_sharding {A} (encode : A → string) (world_size : nat)
    (graphs : list A) (files : nat → string) :
  (0 < world_size)%nat →
  Forall (λ g, clean_piece (encode g) = true) graphs →
  (∀ rk, (rk < world_size)%nat →
     ∃ shard, slice_from_step rk world_size graphs = Done shard
              ∧ files rk = write_text (encode <$> shard)) →
  merge_files world_size files
  = Ok ((encode <$> graphs) ++ replicate (world_size - length graphs) ""%string).
Proof.
  intros Hws Hclean Hfiles.
  set (merged := (encode <$> graphs) ++ replicate (world_size - length graphs) ""%string).
  rewrite <-(merge_slices world_size merged Hws).
  unfold merge_files, merge_pieces.
  assert (Heq : (λ rk, read_pieces (files rk)) <$> seq 0 world_size
                = (λ rk, every_nth world_size rk merged) <$> seq 0 world_size);
    [|by rewrite Heq].
  apply list_fmap_ext. intros i rk Hrk. apply lookup_seq in Hrk as [Hrk Hlt].
  cbn in Hrk. subst rk.
  destruct (Hfiles i Hlt) as (shard & Hshard & ->).
  assert (shard = every_nth world_size i graphs) as ->.
  { destruct world_size; [lia|]. cbn in Hshard. by simplify_eq. }
  assert (Hlen : length merged = (length graphs `max` world_size)%nat).
  { subst merged. rewrite length_app, length_fmap, length_replicate. lia. }
  rewrite read_pieces_write_text; last first.
  { apply Forall_fmap, Forall_forall. intros g Hg. rewrite Forall_forall in Hclean.
    apply Hclean. apply list_elem_of_lookup in Hg as [k Hk].
    rewrite every_nth_lookup in Hk by done. by eapply list_elem_of_lookup_2. }
  apply list_eq. intros k.
  rewrite (every_nth_lookup world_size i k merged) by done.
  destruct (decide (length graphs ≤ i)%nat) as [Hi|Hi].
  - rewrite (proj2 (every_nth_nil_iff world_size i graphs Hws) Hi). cbn [fmap list_fmap].
    destruct k as [|k].
    + replace (i + 0 * world_size)%nat with i by lia. subst merged.
      rewrite lookup_app_r by (by rewrite length_fmap).
      rewrite length_fmap. cbn. symmetry. apply lookup_replicate_2. lia.
    + rewrite (lookup_ge_None_2 [""%string] (S k)) by (cbn; lia).
      symmetry. apply lookup_ge_None_2. nia.
  - assert (every_nth world_size i graphs ≠ []) as Hne.
    { intros Hnil. apply every_nth_nil_iff in Hnil; [lia|done]. }
    destruct (encode <$> every_nth world_size i graphs) as [|p ps] eqn:Hps.
    { by apply fmap_nil_inv in Hps. }
    rewrite <-Hps, <-every_nth_fmap, every_nth_lookup by done.
    destruct (decide (i + k * world_size < length graphs)%nat) as [Hk|Hk].
    + subst merged. by rewrite lookup_app_l by (by rewrite length_fmap).
    + rewrite lookup_ge_None_2 by (rewrite length_fmap; lia).
      symmetry. apply lookup_ge_None_2. rewrite Hlen.
      destruct k as [|k]; [lia|]. nia.
Qed.

Lemma merge_files_after_sharding_witness :
  merge_files 2 (λ rk, if decide (rk = 0%nat) then "g10"%string else ""%string)
  = Ok ((String.append "g" <$> ["10"%string])
        ++ replicate (2 - length ["10"%string]) ""%string).
Proof.
  apply (merge_files_after_sharding (String.append "g") 2 ["10"%string]).
  - lia.
  - by repeat constructor.
  - intros rk Hrk. destruct rk as [|[|rk]]; [by eexists|by eexists|lia].
Defined.

(** ** The constructor of the dataset *)

Section init_facts.
Context (tokenizer : TokenizerObj) (teacher : option TokenizerObj).
Context (exceeds_5 : nat → nat → bool) (is_train : bool) (rlt : option Z).

Abbreviation step := (init_step tokenizer teacher exceeds_5 is_train rlt).
Abbreviation loop := (init_loop tokenizer teacher exceeds_5 is_train rlt).

(** What an iteration that raises nothing has done. *)
Lemma init_step_cases (st st' : Built) (g : Graph) :
  step st g = Done st' →
  ∃ lang snt,
    metadata g !! "snt_lang" = Some lang
    ∧ metadata g !! "snt" = Some snt
    ∧ ((is_train = true ∧ st' = discard st)
       ∨ ∃ token_en x_en,
           st' = append_example st g snt (encode tokenizer lang snt) token_en x_en
                   (match teacher with
                    | Some t => encode t (src_lang t) token_en
                    | None => x_en
                    end)
                   (linearize tokenizer g).1 (linearize tokenizer g).2
           ∧ (is_train = true →
              (linearize tokenizer g).1 ≠ []
              ∧ exceeds_5 (length (encode tokenizer lang snt))
                  (length (linearize tokenizer g).1) = false
              ∧ (truthy_int rlt = true →
                 Z.of_nat (length (linearize tokenizer g).1) ≤ default 0 rlt))
           ∧ (truthy_str (metadata g !! "tok-en") = false ∨ lang = "en_XX"%string →
              token_en = snt ∧ x_en = encode tokenizer lang snt)).
Proof.
  unfold init_step, metadata_get. destruct (linearize tokenizer g) as [l e]. cbn.
  destruct (metadata g !! "snt_lang") as [lang|]; [|done]. cbn.
  destruct (metadata g !! "snt") as [snt|]; [|done]. cbn.
  intros H. exists lang, snt. split; [done|]. split; [done|].
  assert (Htail : ∀ token_en x_en,
            (token_en, x_en)
            = (if truthy_str (metadata g !! "tok-en")
                  && negb (bool_decide (lang = "en_XX"%string))
               then (default ""%string (metadata g !! "tok-en"),
                     encode tokenizer "en_XX" (default ""%string (metadata g !! "tok-en")))
               else (snt, encode tokenizer lang snt)) →
            truthy_str (metadata g !! "tok-en") = false ∨ lang = "en_XX"%string →
            token_en = snt ∧ x_en = encode tokenizer lang snt).
  { intros token_en x_en Heq Hor.
    destruct (truthy_str _ && _) eqn:Hen; [|by simplify_eq].
    apply andb_true_iff in Hen as [Ht Hl].
    apply negb_true_iff, bool_decide_eq_false in Hl. destruct Hor; congruence. }
  destruct (if truthy_str (metadata g !! "tok-en")
               && negb (bool_decide (lang = "en_XX"%string))
            then _ else _) as [token_en x_en] eqn:Hen.
  specialize (Htail token_en x_en eq_refl). clear Hen.
  destruct is_train; cbn in H.
  - destruct (bool_decide (Z.of_nat (length l) > default 0 rlt)) eqn:Hlong.
    + destruct (truthy_int rlt) eqn:Hrlt; cbn in H.
      { left. unfold mret, outcome_ret in H. by simplify_eq. }
      destruct (bool_decide (length l = 0%nat)) eqn:Hl0; [done|]. cbn in H.
      apply bool_decide_eq_false in Hl0.
      destruct (exceeds_5 _ _) eqn:Hex.
      { left. unfold mret, outcome_ret in H. by simplify_eq. }
      right. unfold mret, outcome_ret in H. simplify_eq.
      exists token_en, x_en. split; [done|]. split; [|done].
      intros _. split; [by destruct l|]. split; [done|done].
    + rewrite andb_false_r in H.
      destruct (bool_decide (length l = 0%nat)) eqn:Hl0; [done|]. cbn in H.
      apply bool_decide_eq_false in Hl0, Hlong.
      destruct (exceeds_5 _ _) eqn:Hex.
      { left. unfold mret, outcome_ret in H. by simplify_eq. }
      right. unfold mret, outcome_ret in H. simplify_eq.
      exists token_en, x_en. split; [done|]. split; [|done].
      intros _. split; [by destruct l|]. split; [done|]. intros _. lia.
  - right. unfold mret, outcome_ret in H. simplify_eq.
    exists token_en, x_en. by split.
Qed.

(** Induction over the loop, for a property that every iteration on a
    graph with [Q] keeps. *)
Lemma init_loop_ind (P : Built → Prop) (Q : Graph → Prop)
    (graphs : list Graph) (st st' : Built) :
  (∀ st0 g st1, Q g → P st0 → step st0 g = Done st1 → P st1) →
  Forall Q graphs → P st → loop graphs st = Done st' → P st'.
Proof.
  intros Hstep HQ. revert st.
  induction HQ as [|g graphs Hg _ IH]; intros st HP Hloop.
  - cbn in Hloop. unfold mret, outcome_ret in Hloop. by simplify_eq.
  - cbn in Hloop. destruct (step st g) as [st1|] eqn:Hst; [|done]. cbn in Hloop.
    eapply IH; [|done]. by eapply Hstep.
Qed.
End init_facts.

Section init_theorems.
Context (tokenizer : TokenizerObj) (teacher : option TokenizerObj).
Context (exceeds_5 : nat → nat → bool) (rlt : option Z).

Lemma init_step_aligned (is_train : bool) (st st' : Built) (g : Graph) :
  aligned tokenizer teacher st →
  init_step tokenizer teacher exceeds_5 is_train rlt st g = Done st' →
  aligned tokenizer teacher st'.
Proof.
  intros HP Hstep.
  destruct (init_step_cases _ _ _ _ _ _ _ _ Hstep)
    as (lang & snt & _ & _ & [[_ ->]|(token_en & x_en & -> & _ & _)]); [done|].
  destruct HP as ([H1 H2 H3 H4 H5 H6 H7] & Hg & Hl & He & Hst & Hxt).
  unfold aligned, AMRDataset.len in *. cbn.
  split; [split; cbn; rewrite !length_app; cbn; unfold AMRDataset.len in *; lia|].
  split; [rewrite !length_app; cbn; lia|].
  split; [by rewrite fmap_app, Hl|]. split; [by rewrite fmap_app, He|].
  split; [by rewrite Hst|]. intros ->. by rewrite Hxt.
Qed.

Lemma init_loop_kept (is_train : bool) (graphs : list Graph) (st st' : Built) :
  init_loop tokenizer teacher exceeds_5 is_train rlt graphs st = Done st' →
  ∃ kept,
    built_graphs st' = built_graphs st ++ kept
    ∧ kept `sublist_of` graphs
    ∧ (discarded st' + length kept = discarded st + length graphs)%nat
    ∧ (is_train = false → kept = graphs).
Proof.
  revert st. induction graphs as [|g graphs IH]; intros st Hloop.
  - cbn in Hloop. unfold mret, outcome_ret in Hloop. simplify_eq.
    exists []. by rewrite app_nil_r.
  - cbn in Hloop.
    destruct (init_step _ _ _ _ _ st g) as [st1|] eqn:Hst; [|done]. cbn in Hloop.
    destruct (IH st1 Hloop) as (kept & Hk & Hsub & Hcount & Hall).
    destruct (init_step_cases _ _ _ _ _ _ _ _ Hst)
      as (lang & snt & _ & _ & [[Htrain ->]|(token_en & x_en & -> & _ & _)]).
    + exists kept. cbn in *. split; [done|]. split; [by apply sublist_cons|].
      split; [lia|]. congruence.
    + exists (g :: kept). cbn in *. split; [by rewrite Hk, <-app_assoc|].
      split; [by apply sublist_skip|]. split; [lia|]. intros Hf. by rewrite Hall.
Qed.
End init_theorems.

(** X15. Whatever the tokenizers and the filter, a dataset that the
    constructor returns has aligned lists: one entry per kept graph in each of
    [sentences], [tokenized], [linearized], [linearized_extra] and the English
    and teacher lists, the linearizations being those of the kept graphs. The
    kept graphs are a subsequence of the shard
    [graphs[rank::world_size]], and together with the discarded ones they
    account for the whole shard. *)
Theorem init_aligned_lists (graphs : list Graph) (tokenizer : TokenizerObj)
    (exceeds_5 : nat → nat → bool) (remove_longer_than : option Z)
    (evaluation : bool) (teacher_tokenizer : option TokenizerObj)
    (rank world_size : nat) (b : Built) :
  AMRDataset_init graphs tokenizer exceeds_5 remove_longer_than evaluation
    teacher_tokenizer rank world_size = Done b →
  AMRDataset.wf (built_dataset b)
  ∧ length (built_graphs b) = AMRDataset.len (built_dataset b)
  ∧ AMRDataset.linearized (built_dataset b)
    = (λ g, (linearize tokenizer g).1) <$> built_graphs b
  ∧ AMRDataset.linearized_extra (built_dataset b)
    = (λ g, (linearize tokenizer g).2) <$> built_graphs b
  ∧ ∃ shard,
      slice_from_step rank world_size graphs = Done shard
      ∧ built_graphs b `sublist_of` shard
      ∧ (AMRDataset.len (built_dataset b) + discarded b = length shard)%nat.
Proof.
  unfold AMRDataset_init. intros H.
  destruct (slice_from_step rank world_size graphs) as [shard|] eqn:Hshard; [|done].
  cbn in H.
  match type of H with
  | init_loop _ _ _ _ _ _ ?start = _ => set (st0 := start) in *
  end.
  assert (H0 : aligned tokenizer teacher_tokenizer st0) by (by repeat split).
  pose proof (init_loop_ind tokenizer teacher_tokenizer exceeds_5 (negb evaluation)
                remove_longer_than (aligned tokenizer teacher_tokenizer) (λ _, True)
                shard st0 b) as Hind.
  destruct Hind as (Hwf & Hlen & Hl & He & _); [|by apply Forall_true|done|done|].
  { intros st g st1 _ HP Hst. by eapply init_step_aligned. }
  destruct (init_loop_kept _ _ _ _ _ _ _ _ H) as (kept & Hk & Hsub & Hcount & _).
  cbn in Hk, Hcount. subst kept.
  split; [done|]. split; [done|]. split; [done|]. split; [done|].
  exists shard. split; [done|]. split; [done|]. lia.
Qed.

Lemma init_aligned_lists_witness :
  AMRDataset.wf (built_dataset toy_built)
  ∧ length (built_graphs toy_built) = AMRDataset.len (built_dataset toy_built)
  ∧ AMRDataset.linearized (built_dataset toy_built)
    = (λ g, (linearize toy_tokenizer g).1) <$> built_graphs toy_built
  ∧ AMRDataset.linearized_extra (built_dataset toy_built)
    = (λ g, (linearize toy_tokenizer g).2) <$> built_graphs toy_built
  ∧ ∃ shard,
      slice_from_step 0 1 toy_graphs = Done shard
      ∧ built_graphs toy_built `sublist_of` shard
      ∧ (AMRDataset.len (built_dataset toy_built) + discarded toy_built
         = length shard)%nat.
Proof.
  apply (init_aligned_lists toy_graphs toy_tokenizer toy_exceeds_5 (Some 5) false
           None 0 1 toy_built).
  vm_compute. reflexivity.
Defined.

Section init_modes.
Context (tokenizer : TokenizerObj) (teacher : option TokenizerObj).
Context (exceeds_5 : nat → nat → bool) (rlt : option Z).

Lemma init_step_eval (st : Built) (g : Graph) :
  (is_Some (metadata g !! "snt") ∧ is_Some (metadata g !! "snt_lang") →
   ∃ st', init_step tokenizer teacher exceeds_5 false rlt st g = Done st')
  ∧ (metadata g !! "snt" = None ∨ metadata g !! "snt_lang" = None →
     ∀ is_train,
       init_step tokenizer teacher exceeds_5 is_train rlt st g
       = Fails (Exn KeyError)).
Proof.
  unfold init_step, metadata_get. destruct (linearize tokenizer g) as [l e].
  split.
  - intros [[snt ->] [lang ->]]. cbn.
    destruct (_ && _); by eexists.
  - intros [Hn|Hn] is_train; rewrite Hn; [|done].
    by destruct (metadata g !! "snt_lang").
Qed.

Lemma init_loop_eval (graphs : list Graph) (st : Built) :
  (Forall (λ g, is_Some (metadata g !! "snt")
                ∧ is_Some (metadata g !! "snt_lang")) graphs →
   ∃ st', init_loop tokenizer teacher exceeds_5 false rlt graphs st = Done st')
  ∧ (Exists (λ g, metadata g !! "snt" = None ∨ metadata g !! "snt_lang" = None)
       graphs →
     init_loop tokenizer teacher exceeds_5 false rlt graphs st
     = Fails (Exn KeyError)).
Proof.
  revert st. induction graphs as [|g graphs IH]; intros st; split.
  - intros _. by eexists.
  - intros H. by apply Exists_nil in H.
  - intros H. apply Forall_cons in H as [Hg Hrest]. cbn.
    destruct (proj1 (init_step_eval st g) Hg) as [st1 ->]. cbn.
    by apply IH.
  - intros H. cbn.
    destruct (decide (metadata g !! "snt" = None ∨ metadata g !! "snt_lang" = None))
      as [Hbad|Hgood].
    + by rewrite (proj2 (init_step_eval st g) Hbad false).
    + apply Exists_cons in H as [?|Hrest]; [done|].
      destruct (proj1 (init_step_eval st g)) as [st1 ->].
      { destruct (metadata g !! "snt"), (metadata g !! "snt_lang");
          try (by split; eexists); exfalso; apply Hgood; auto. }
      cbn. by apply IH.
Qed.
End init_modes.

(** X16. In evaluation mode (the default) the constructor filters
    nothing: when every graph of the shard has the metadata [snt] and
    [snt_lang], it returns a dataset with exactly the graphs of the shard, in
    their order, and has discarded none; when some graph of the shard lacks
    one of the two, it raises [KeyError]. *)
Theorem init_evaluation_keeps_all (graphs : list Graph) (tokenizer : TokenizerObj)
    (exceeds_5 : nat → nat → bool) (remove_longer_than : option Z)
    (teacher_tokenizer : option TokenizerObj) (rank world_size : nat)
    (shard : list Graph) :
  slice_from_step rank world_size graphs = Done shard →
  (Forall (λ g, is_Some (metadata g !! "snt")
                ∧ is_Some (metadata g !! "snt_lang")) shard →
   ∃ b,
     AMRDataset_init graphs tokenizer exceeds_5 remove_longer_than true
       teacher_tokenizer rank world_size = Done b
     ∧ built_graphs b = shard
     ∧ discarded b = 0%nat
     ∧ AMRDataset.len (built_dataset b) = length shard)
  ∧ (Exists (λ g, metadata g !! "snt" = None ∨ metadata g !! "snt_lang" = None)
       shard →
     AMRDataset_init graphs tokenizer exceeds_5 remove_longer_than true
       teacher_tokenizer rank world_size = Fails (Exn KeyError)).
Proof.
  intros Hshard. unfold AMRDataset_init. rewrite Hshard. cbn.
  match goal with
  | |- context [init_loop _ _ _ _ _ _ ?start] => set (st0 := start)
  end.
  split.
  - intros Hmeta.
    destruct (proj1 (init_loop_eval tokenizer teacher_tokenizer exceeds_5
                       remove_longer_than shard st0) Hmeta) as [b Hb].
    exists b. split; [done|].
    destruct (init_loop_kept _ _ _ _ _ _ _ _ Hb) as (kept & Hk & _ & Hcount & Hall).
    cbn in Hk, Hcount. rewrite (Hall eq_refl) in Hk, Hcount.
    split; [done|]. split; [lia|].
    assert (H0 : aligned tokenizer teacher_tokenizer st0) by (by repeat split).
    pose proof (init_loop_ind tokenizer teacher_tokenizer exceeds_5 false
                  remove_longer_than (aligned tokenizer teacher_tokenizer)
                  (λ _, True) shard st0 b) as Hind.
    destruct Hind as (_ & Hlen & _); [|by apply Forall_true|done|done|].
    { intros st g st1 _ HP Hst. by eapply init_step_aligned. }
    by rewrite <-Hlen, Hk.
  - intros Hbad.
    apply (init_loop_eval tokenizer teacher_tokenizer exceeds_5 remove_longer_than).
    done.
Qed.

Lemma init_evaluation_keeps_all_witness :
  (∃ b,
     AMRDataset_init toy_graphs toy_tokenizer toy_exceeds_5 (Some 5) true None 1 2
     = Done b
     ∧ built_graphs b = [toy_graph 1 "abcdefgh" "it_IT"; toy_graph 6 "abcd" "en_XX"]
     ∧ discarded b = 0%nat
     ∧ AMRDataset.len (built_dataset b)
       = length [toy_graph 1 "abcdefgh" "it_IT"; toy_graph 6 "abcd" "en_XX"])
  ∧ AMRDataset_init [toy_graph 3 "ab" "en_XX";
                     {| metadata := {[ "snt"%string := "a"%string ]};
                        graph_handle := 2 |}]
      toy_tokenizer toy_exceeds_5 (Some 5) true None 0 1
    = Fails (Exn KeyError).
Proof.
  split.
  - apply (init_evaluation_keeps_all toy_graphs toy_tokenizer toy_exceeds_5
             (Some 5) None 1 2); [reflexivity|].
    repeat (apply Forall_cons; split; [by split; eexists|]). apply Forall_nil_2.
  - eapply (init_evaluation_keeps_all _ toy_tokenizer toy_exceeds_5
              (Some 5) None 0 1); [reflexivity|].
    apply Exists_cons_tl, Exists_cons_hd. by right.
Defined.

(** X17. In training mode every example that the constructor keeps has
    passed both filters: its linearization is not empty, is at most
    [remove_longer_than] long when that bound is set and not 0, and the test
    [x.size(0) / len(l) > 5.] was false for it. *)
Theorem init_training_filters (graphs : list Graph) (tokenizer : TokenizerObj)
    (exceeds_5 : nat → nat → bool) (remove_longer_than : option Z)
    (teacher_tokenizer : option TokenizerObj) (rank world_size : nat) (b : Built) :
  AMRDataset_init graphs tokenizer exceeds_5 remove_longer_than false
    teacher_tokenizer rank world_size = Done b →
  Forall2 (λ x l,
             l ≠ []
             ∧ exceeds_5 (length x) (length l) = false
             ∧ (truthy_int remove_longer_than = true →
                Z.of_nat (length l) ≤ default 0 remove_longer_than))
    (AMRDataset.tokenized (built_dataset b))
    (AMRDataset.linearized (built_dataset b)).
Proof.
  unfold AMRDataset_init. intros H.
  destruct (slice_from_step rank world_size graphs) as [shard|]; [|done].
  cbn in H.
  match type of H with
  | init_loop _ _ _ _ _ _ ?start = _ => set (st0 := start) in *
  end.
  apply (init_loop_ind tokenizer teacher_tokenizer exceeds_5 true
           remove_longer_than
           (λ st, Forall2 (λ x l,
                    l ≠ []
                    ∧ exceeds_5 (length x) (length l) = false
                    ∧ (truthy_int remove_longer_than = true →
                       Z.of_nat (length l) ≤ default 0 remove_longer_than))
                    (AMRDataset.tokenized (built_dataset st))
                    (AMRDataset.linearized (built_dataset st)))
           (λ _, True) shard st0 b);
    [|by apply Forall_true|by constructor|exact H].
  intros st g st1 _ HP Hst.
  destruct (init_step_cases _ _ _ _ _ _ _ _ Hst)
    as (lang & snt & _ & _ & [[_ ->]|(token_en & x_en & -> & Hfilter & _)]);
    [done|].
  cbn. apply Forall2_app; [done|]. constructor; [|constructor].
  by apply Hfilter.
Qed.

Lemma init_training_filters_witness :
  Forall2 (λ x l,
             l ≠ []
             ∧ toy_exceeds_5 (length x) (length l) = false
             ∧ (truthy_int (Some 5) = true →
                Z.of_nat (length l) ≤ default 0 (Some 5)))
    (AMRDataset.tokenized (built_dataset toy_built))
    (AMRDataset.linearized (built_dataset toy_built)).
Proof.
  apply (init_training_filters toy_graphs toy_tokenizer toy_exceeds_5 (Some 5)
           None 0 1 toy_built).
  vm_compute. reflexivity.
Defined.

(** X18. The fallbacks of the constructor. The teacher sentences are the
    English sentences. Without a teacher tokenizer the teacher encodings are
    the English encodings and the dataset's teacher tokenizer is the
    tokenizer. When every graph of the shard either has no usable [tok-en]
    or is in language [en_XX], the English sentences and encodings are the
    sentences and encodings themselves. *)
Theorem init_fallbacks (graphs : list Graph) (tokenizer : TokenizerObj)
    (exceeds_5 : nat → nat → bool) (remove_longer_than : option Z)
    (evaluation : bool) (teacher_tokenizer : option TokenizerObj)
    (rank world_size : nat) (b : Built) :
  AMRDataset_init graphs tokenizer exceeds_5 remove_longer_than evaluation
    teacher_tokenizer rank world_size = Done b →
  AMRDataset.sentences_teacher (built_dataset b)
  = AMRDataset.sentences_en (built_dataset b)
  ∧ (teacher_tokenizer = None →
     AMRDataset.tokenized_teacher (built_dataset b)
     = AMRDataset.tokenized_en (built_dataset b)
     ∧ AMRDataset.teacher_tokenizer (built_dataset b) = attrs tokenizer)
  ∧ (∀ shard,
       slice_from_step rank world_size graphs = Done shard →
       Forall (λ g, truthy_str (metadata g !! "tok-en") = false
                    ∨ metadata g !! "snt_lang" = Some "en_XX"%string) shard →
       AMRDataset.sentences_en (built_dataset b)
       = AMRDataset.sentences (built_dataset b)
       ∧ AMRDataset.tokenized_en (built_dataset b)
         = AMRDataset.tokenized (built_dataset b)).
Proof.
  unfold AMRDataset_init. intros H.
  destruct (slice_from_step rank world_size graphs) as [shard|] eqn:Hshard; [|done].
  cbn in H.
  match type of H with
  | init_loop _ _ _ _ _ _ ?start = _ => set (st0 := start) in *
  end.
  assert (Hal : aligned tokenizer teacher_tokenizer b).
  { apply (init_loop_ind tokenizer teacher_tokenizer exceeds_5 (negb evaluation)
             remove_longer_than (aligned tokenizer teacher_tokenizer)
             (λ _, True) shard st0 b);
      [|by apply Forall_true|by repeat split|exact H].
    intros st g st1 _ HP Hst. by eapply init_step_aligned. }
  destruct Hal as (_ & _ & _ & _ & Hst & Hxt).
  assert (Htok : AMRDataset.teacher_tokenizer (built_dataset b)
                 = attrs (default tokenizer teacher_tokenizer)).
  { apply (init_loop_ind tokenizer teacher_tokenizer exceeds_5 (negb evaluation)
              remove_longer_than
              (λ st, AMRDataset.teacher_tokenizer (built_dataset st)
                     = attrs (default tokenizer teacher_tokenizer))
              (λ _, True) shard st0 b);
      [|by apply Forall_true|done|exact H].
    intros st g st1 _ HP Hstep.
    destruct (init_step_cases _ _ _ _ _ _ _ _ Hstep)
      as (lang & snt & _ & _ & [[_ ->]|(token_en & x_en & -> & _ & _)]); done. }
  split; [done|]. split.
  { intros ->. split; [by apply Hxt|done]. }
  intros shard' [= <-] Hen.
  apply (init_loop_ind tokenizer teacher_tokenizer exceeds_5 (negb evaluation)
           remove_longer_than
           (λ st, AMRDataset.sentences_en (built_dataset st)
                  = AMRDataset.sentences (built_dataset st)
                  ∧ AMRDataset.tokenized_en (built_dataset st)
                    = AMRDataset.tokenized (built_dataset st))
           (λ g, truthy_str (metadata g !! "tok-en") = false
                 ∨ metadata g !! "snt_lang" = Some "en_XX"%string)
           shard st0 b); [|exact Hen|done|exact H].
  intros st g st1 Hg [HP1 HP2] Hstep. cbn in Hg.
  destruct (init_step_cases _ _ _ _ _ _ _ _ Hstep)
    as (lang & snt & Hlang & _ & [[_ ->]|(token_en & x_en & -> & _ & Hfall)]);
    [done|].
  destruct Hfall as [-> ->].
  { destruct Hg as [?|Hg]; [by left|]. right. congruence. }
  cbn. by rewrite HP1, HP2.
Qed.

Lemma init_fallbacks_witness :
  AMRDataset.sentences_teacher (built_dataset toy_built)
  = AMRDataset.sentences_en (built_dataset toy_built)
  ∧ (@None TokenizerObj = None →
     AMRDataset.tokenized_teacher (built_dataset toy_built)
     = AMRDataset.tokenized_en (built_dataset toy_built)
     ∧ AMRDataset.teacher_tokenizer (built_dataset toy_built) = attrs toy_tokenizer)
  ∧ (∀ shard,
       slice_from_step 0 1 toy_graphs = Done shard →
       Forall (λ g, truthy_str (metadata g !! "tok-en") = false
                    ∨ metadata g !! "snt_lang" = Some "en_XX"%string) shard →
       AMRDataset.sentences_en (built_dataset toy_built)
       = AMRDataset.sentences (built_dataset toy_built)
       ∧ AMRDataset.tokenized_en (built_dataset toy_built)
         = AMRDataset.tokenized (built_dataset toy_built)).
Proof.
  apply (init_fallbacks toy_graphs toy_tokenizer toy_exceeds_5 (Some 5) false
           None 0 1 toy_built).
  vm_compute. reflexivity.
Defined.

Section init_zero_division.
Context (tokenizer : TokenizerObj) (teacher : option TokenizerObj).
Context (exceeds_5 : nat → nat → bool) (rlt : option Z).

Lemma init_step_train (st : Built) (g : Graph) :
  is_Some (metadata g !! "snt") ∧ is_Some (metadata g !! "snt_lang") →
  (truthy_int rlt = true → 0 ≤ default 0 rlt) →
  ((linearize tokenizer g).1 = [] →
   init_step tokenizer teacher exceeds_5 true rlt st g = Fails ZeroDivisionError)
  ∧ ((linearize tokenizer g).1 ≠ [] →
     ∃ st', init_step tokenizer teacher exceeds_5 true rlt st g = Done st').
Proof.
  intros [[snt Hsnt] [lang Hlang]] Hrlt.
  unfold init_step, metadata_get. destruct (linearize tokenizer g) as [l e].
  rewrite Hsnt, Hlang. cbn. split.
  - intros ->. cbn.
    destruct (truthy_int rlt) eqn:Ht; cbn; [|done].
    rewrite bool_decide_eq_false_2; [done|]. specialize (Hrlt eq_refl). lia.
  - intros Hne.
    destruct (truthy_int rlt && _); [by eexists|].
    rewrite (bool_decide_eq_false_2 (length l = 0%nat)) by (by destruct l). cbn.
    destruct (exceeds_5 _ _); [by eexists|].
    destruct (_ && _); by eexists.
Qed.
End init_zero_division.

(** X19. In training mode a graph whose linearization is empty makes the
    constructor raise [ZeroDivisionError]: this happens whenever the graphs of
    the shard have their metadata, one of them has an empty linearization, and
    [remove_longer_than] is unset, 0 or positive. *)
Theorem init_empty_linearization (graphs : list Graph) (tokenizer : TokenizerObj)
    (exceeds_5 : nat → nat → bool) (remove_longer_than : option Z)
    (teacher_tokenizer : option TokenizerObj) (rank world_size : nat)
    (shard : list Graph) :
  slice_from_step rank world_size graphs = Done shard →
  Forall (λ g, is_Some (metadata g !! "snt")
               ∧ is_Some (metadata g !! "snt_lang")) shard →
  Exists (λ g, (linearize tokenizer g).1 = []) shard →
  (truthy_int remove_longer_than = true → 0 ≤ default 0 remove_longer_than) →
  AMRDataset_init graphs tokenizer exceeds_5 remove_longer_than false
    teacher_tokenizer rank world_size = Fails ZeroDivisionError.
Proof.
  intros Hshard Hmeta Hempty Hrlt. unfold AMRDataset_init. rewrite Hshard. cbn.
  clear Hshard.
  match goal with
  | |- init_loop _ _ _ _ _ _ ?start = _ => generalize start
  end.
  induction Hmeta as [|g shard' Hg _ IH]; intros st.
  { by apply Exists_nil in Hempty. }
  cbn.
  destruct (init_step_train tokenizer teacher_tokenizer exceeds_5
              remove_longer_than st g Hg Hrlt) as [Hzero Hok].
  destruct (decide ((linearize tokenizer g).1 = [])) as [He|Hne].
  - by rewrite (Hzero He).
  - destruct (Hok Hne) as [st' ->]. cbn.
    apply Exists_cons in Hempty as [?|Hempty]; [done|]. by apply IH.
Qed.

Lemma init_empty_linearization_witness :
  AMRDataset_init [toy_graph 3 "ab" "en_XX"; toy_graph 0 "abc" "en_XX"]
    toy_tokenizer toy_exceeds_5 (Some 5) false None 0 1
  = Fails ZeroDivisionError.
Proof.
  apply (init_empty_linearization _ toy_tokenizer toy_exceeds_5 (Some 5) None 0 1
           [toy_graph 3 "ab" "en_XX"; toy_graph 0 "abc" "en_XX"]).
  - reflexivity.
  - repeat (apply Forall_cons; split; [by split; eexists|]). apply Forall_nil_2.
  - apply Exists_cons_tl, Exists_cons_hd. reflexivity.
  - intros _. cbn. lia.
Defined.
